(** * react-mosaic-ui: the mosaic tree, its update algebra, drag relocation
      and the bounding-box geometry, embedded from
      [shared/lib/mosaic-utilities.ts], [shared/lib/mosaic-updates.ts],
      [shared/lib/bounding-box.ts] and [shared/types/mosaic.types.ts]. *)

From Stdlib Require Import String.
From Stdlib Require Import List Bool Arith ZArith Lia Permutation.
From Stdlib Require Import Floats.
From Equations Require Import Equations.
Import ListNotations.

(** ** Types ([mosaic.types.ts]) *)

(** A JavaScript [number] is an IEEE 754 binary64 value. *)
Definition number : Set := float.

Bind Scope float_scope with number.

Inductive MosaicDirection : Set := row | column.

Inductive MosaicBranch : Set := first | second.

Definition MosaicPath : Set := list MosaicBranch.

(** [MosaicNode<T> = MosaicParent<T> | T]; [splitPercentage] is optional. *)
Inductive MosaicNode (T : Type) : Type :=
| Leaf (id : T)
| Parent (direction : MosaicDirection)
         (fst_child snd_child : MosaicNode T)
         (splitPercentage : option number).

Arguments Leaf {T} id.
Arguments Parent {T} direction fst_child snd_child splitPercentage.

Inductive MosaicDropTargetPosition : Set := TOP | BOTTOM | LEFT | RIGHT.

(** [MosaicUpdateSpec<T>]: either [{ $set: node }] or a patch object whose
    four fields are all optional. *)
#[warnings="-register-all"]
Inductive MosaicUpdateSpec (T : Type) : Type :=
| SpecSet (node : MosaicNode T)
| SpecPatch (splitPercentage : option number)
            (direction : option MosaicDirection)
            (fst_spec snd_spec : option (MosaicUpdateSpec T)).

Arguments SpecSet {T} node.
Arguments SpecPatch {T} splitPercentage direction fst_spec snd_spec.

Record MosaicUpdate (T : Type) : Type := mkUpdate
  { path : MosaicPath;
    spec : MosaicUpdateSpec T }.

Arguments mkUpdate {T} path spec.
Arguments path {T} _.
Arguments spec {T} _.

(** The three [throw new Error(...)] sites of the update constructors, named
    after their messages: ['Cannot remove root node'],
    [`Node at path ${path.join('/')} not found`] and
    ['Parent is not a parent node']. *)
Inductive MosaicError : Set :=
| CannotRemoveRoot
| NodeNotFound (at_path : MosaicPath)
| ParentNotParent.

(** A computation that returns or throws. *)
Inductive result (A : Type) : Type :=
| Ok (value : A)
| Throw (error : MosaicError).

Arguments Ok {A} value.
Arguments Throw {A} error.

Record BoundingBox : Set := createBoundingBox
  { top : number;
    right : number;
    bottom : number;
    left : number }.

(** ** Branch and direction helpers *)

Definition branch_eqb (a b : MosaicBranch) : bool :=
  match a, b with
  | first, first | second, second => true
  | _, _ => false
  end.

Definition getOtherDirection (direction : MosaicDirection) : MosaicDirection :=
  match direction with row => column | column => row end.

Definition getOtherBranch (branch : MosaicBranch) : MosaicBranch :=
  match branch with first => second | second => first end.

(** [p.every((branch, index) => q[index] === branch)]: every element of [p]
    equals the element of [q] at the same index ([q[index]] is [undefined]
    past the end of [q], which equals no branch). *)
Fixpoint everyMatches (p q : MosaicPath) : bool :=
  match p with
  | [] => true
  | b :: p' =>
      match q with
      | [] => false
      | c :: q' => branch_eqb c b && everyMatches p' q'
      end
  end.

(** [JSON.stringify(p) === JSON.stringify(q)] on two branch arrays. *)
Fixpoint path_eqb (p q : MosaicPath) : bool :=
  match p, q with
  | [], [] => true
  | b :: p', c :: q' => branch_eqb b c && path_eqb p' q'
  | _, _ => false
  end.

(** [a === b] on two array reads, either of which may be [undefined]. *)
Definition optBranch_eqb (a b : option MosaicBranch) : bool :=
  match a, b with
  | Some x, Some y => branch_eqb x y
  | None, None => true
  | _, _ => false
  end.

Section Mosaic.

Context {T : Type}.

Local Abbreviation Node := (MosaicNode T).
Local Abbreviation Update := (MosaicUpdate T).
Local Abbreviation Spec := (MosaicUpdateSpec T).

(** ** Tree primitives ([mosaic-utilities.ts]) *)

(** [isParent] on a non-null node. *)
Definition isParent (node : Node) : bool :=
  match node with Leaf _ => false | Parent _ _ _ _ => true end.

(** [node[branch]] on a parent. *)
Definition child (branch : MosaicBranch) (f s : Node) : Node :=
  match branch with first => f | second => s end.

(** The recursion of [getLeaves] below a non-null node. *)
Fixpoint nodeLeaves (node : Node) : list T :=
  match node with
  | Leaf id => [id]
  | Parent _ f s _ => nodeLeaves f ++ nodeLeaves s
  end.

Definition getLeaves (node : option Node) : list T :=
  match node with
  | None => []
  | Some n => nodeLeaves n
  end.

(** A path element is ['first'] or ['second'], so the [if (!branch)] exit is
    never taken. *)
Fixpoint getNodeAtPath (node : Node) (path : MosaicPath) {struct path}
  : option Node :=
  match path with
  | [] => Some node
  | branch :: rest =>
      match node with
      | Leaf _ => None
      | Parent _ f s _ => getNodeAtPath (child branch f s) rest
      end
  end.

Definition getAndAssertNodeAtPathExists (node : Node) (path : MosaicPath)
  : result Node :=
  match getNodeAtPath node path with
  | None => Throw (NodeNotFound path)
  | Some r => Ok r
  end.

(** The recursion of [countNodes] below a non-null node. *)
Fixpoint nodeCount (node : Node) : nat :=
  match node with
  | Leaf _ => 1
  | Parent _ f s _ => 1 + nodeCount f + nodeCount s
  end.

Definition countNodes (node : option Node) : nat :=
  match node with
  | None => 0
  | Some n => nodeCount n
  end.

(** [createBalancedTreeFromLeaves]: [slice(0, mid)] is [firstn mid] and
    [slice(mid)] is [skipn mid]; the recursion is on shorter arrays. *)
Equations? createBalancedTreeFromLeaves (leaves : list T)
    (startDirection : MosaicDirection) : option Node
    by wf (length leaves) lt :=
  createBalancedTreeFromLeaves [] _ := None;
  createBalancedTreeFromLeaves [leaf] _ := Some (Leaf leaf);
  createBalancedTreeFromLeaves (l0 :: l1 :: ls) startDirection :=
    let leaves := l0 :: l1 :: ls in
    let mid := Nat.div (length leaves) 2 in
    match createBalancedTreeFromLeaves (firstn mid leaves)
            (getOtherDirection startDirection),
          createBalancedTreeFromLeaves (skipn mid leaves)
            (getOtherDirection startDirection) with
    | Some f, Some s => Some (Parent startDirection f s (Some 50%float))
    | Some f, None => Some f
    | None, s => s
    end.
Proof.
  all: assert (Hmid : 0 < length (l0 :: l1 :: ls) / 2 < length (l0 :: l1 :: ls))
    by (split; [apply Nat.div_str_pos | apply Nat.div_lt]; simpl; lia);
    simpl in Hmid; subst mid leaves.
  - rewrite length_firstn. simpl length. lia.
  - rewrite length_skipn. simpl length. lia.
Qed.

(** ** Update algebra ([mosaic-updates.ts]) *)

(** The [path.length === 0] branch of [applyUpdateAtPath]: a [$set] is left to
    the caller; a patch edits a parent in place and recurses into [first] and
    [second] with the empty path. *)
Fixpoint applySpecHere (node : Node) (spec : Spec) : Node :=
  match spec with
  | SpecSet _ => node
  | SpecPatch sp dir fs ss =>
      match node with
      | Leaf _ => node
      | Parent d f s p =>
          let p' := match sp with Some v => Some v | None => p end in
          let d' := match dir with Some v => v | None => d end in
          let f' := match fs with Some sf => applySpecHere f sf | None => f end in
          let s' := match ss with Some sf => applySpecHere s sf | None => s end in
          Parent d' f' s' p'
      end
  end.

(** [node[branch] = value] on a parent's fields. *)
Definition setChild (branch : MosaicBranch) (d : MosaicDirection)
    (f s : Node) (p : option number) (value : Node) : Node :=
  match branch with
  | first => Parent d value s p
  | second => Parent d f value p
  end.

(** [applyUpdateAtPath] mutates an immer draft; the value it leaves behind is
    returned here. Drafts are copied on write, so no two positions of the
    tree alias each other. *)
Fixpoint applyUpdateAtPath (node : Node) (path : MosaicPath) (spec : Spec)
    {struct path} : Node :=
  match path with
  | [] => applySpecHere node spec
  | branch :: rest =>
      match node with
      | Leaf _ => node
      | Parent d f s p =>
          match rest, spec with
          | [], SpecSet value => setChild branch d f s p value
          | _, _ =>
              setChild branch d f s p
                (applyUpdateAtPath (child branch f s) rest spec)
          end
      end
  end.

(** One iteration of the loop of [updateTree]. *)
Definition applyUpdate (current : Node) (update : Update) : Node :=
  match path update, spec update with
  | [], SpecSet value => value
  | p, s => applyUpdateAtPath current p s
  end.

Definition updateTree (root : option Node) (updates : list Update)
  : option Node :=
  match root with
  | None => None
  | Some r => Some (fold_left applyUpdate updates r)
  end.

Definition createRemoveUpdate (root : option Node) (path : MosaicPath)
  : result Update :=
  match root, path with
  | None, _ | _, [] => Throw CannotRemoveRoot
  | Some r, _ :: _ =>
      let parentPath := removelast path in
      let branch := last path first in
      let siblingBranch := getOtherBranch branch in
      match getAndAssertNodeAtPathExists r parentPath with
      | Throw e => Throw e
      | Ok (Leaf _) => Throw ParentNotParent
      | Ok (Parent _ f s _) =>
          Ok (mkUpdate parentPath (SpecSet (child siblingBranch f s)))
      end
  end.

(** The [position === LEFT || position === TOP] test. *)
Definition sourceGoesFirst (position : MosaicDropTargetPosition) : bool :=
  match position with LEFT | TOP => true | _ => false end.

Definition dropDirection (position : MosaicDropTargetPosition)
  : MosaicDirection :=
  match position with LEFT | RIGHT => row | _ => column end.

(** The object literal [{direction, first, second, splitPercentage: 50}] built
    from the source node and the (possibly updated) destination node. *)
Definition jointNode (position : MosaicDropTargetPosition)
    (sourceNode destinationNode : Node) : Node :=
  Parent (dropDirection position)
    (if sourceGoesFirst position then sourceNode else destinationNode)
    (if sourceGoesFirst position then destinationNode else sourceNode)
    (Some 50%float).

(** The [isDestinationParentOfSource] test of [createDragToUpdates]. *)
Definition isDestinationParentOfSource (sourcePath destinationPath : MosaicPath)
  : bool :=
  (length destinationPath <? length sourcePath)
  && everyMatches destinationPath sourcePath.

(** The value of [adjustedDestinationPath] when the standard case of
    [createDragToUpdates] pushes its last update. *)
Definition adjustedDestinationPath (sourcePath destinationPath : MosaicPath)
  : MosaicPath :=
  let sourceParentPath := removelast sourcePath in
  let destParentPath := removelast destinationPath in
  let areSiblings :=
    (length sourceParentPath =? length destParentPath)
    && everyMatches sourceParentPath destParentPath in
  if areSiblings then sourceParentPath
  else
    let isSourceParentInDestPath :=
      (0 <? length sourceParentPath)
      && (length sourceParentPath <? length destinationPath)
      && everyMatches sourceParentPath destinationPath in
    if isSourceParentInDestPath then
      let sourceBranch := nth_error sourcePath (length sourceParentPath) in
      let destBranchAtSameLevel :=
        nth_error destinationPath (length sourceParentPath) in
      if optBranch_eqb sourceBranch destBranchAtSameLevel then
        sourceParentPath ++ skipn (length sourceParentPath + 1) destinationPath
      else destinationPath
    else destinationPath.

Definition createDragToUpdates (root : Node)
    (sourcePath destinationPath : MosaicPath)
    (position : MosaicDropTargetPosition) : result (list Update) :=
  match getNodeAtPath root sourcePath with
  | None => Ok []
  | Some sourceNode =>
  match getNodeAtPath root destinationPath with
  | None => Ok []
  | Some destinationNode =>
  if path_eqb sourcePath destinationPath then Ok [] else
  let newSplitNode := jointNode position sourceNode destinationNode in
  if isDestinationParentOfSource sourcePath destinationPath then
    let relativeSourcePath := skipn (length destinationPath) sourcePath in
    match createRemoveUpdate (Some destinationNode) relativeSourcePath with
    | Throw e => Throw e
    | Ok removal =>
        match updateTree (Some destinationNode) [removal] with
        | None => Ok []
        | Some updatedDestination =>
            Ok [mkUpdate destinationPath
                  (SpecSet (jointNode position sourceNode updatedDestination))]
        end
    end
  else
    let removeSource :=
      match sourcePath with
      | [] => Ok []
      | _ :: _ =>
          match createRemoveUpdate (Some root) sourcePath with
          | Throw e => Throw e
          | Ok removal => Ok [removal]
          end
      end in
    match removeSource with
    | Throw e => Throw e
    | Ok updates =>
        Ok (updates
              ++ [mkUpdate (adjustedDestinationPath sourcePath destinationPath)
                    (SpecSet newSplitNode)])
    end
  end
  end.

End Mosaic.

(** ** Geometry ([bounding-box.ts]) *)

Definition getWidth (box : BoundingBox) : number :=
  (right box - left box)%float.

Definition getHeight (box : BoundingBox) : number :=
  (bottom box - top box)%float.

(** [Math.min(a, b)]: NaN if either argument is NaN, and [-0] counts as
    smaller than [+0]. *)
Definition Math_min (a b : number) : number :=
  if is_nan a || is_nan b then nan
  else if (a <? b)%float then a
  else if (b <? a)%float then b
  else if get_sign a then a else b.

(** [Math.max(a, b)]: NaN if either argument is NaN, and [+0] counts as
    larger than [-0]. *)
Definition Math_max (a b : number) : number :=
  if is_nan a || is_nan b then nan
  else if (a <? b)%float then b
  else if (b <? a)%float then a
  else if get_sign a then b else a.

Definition split (box : BoundingBox) (percentage : number)
    (direction : MosaicDirection) : BoundingBox * BoundingBox :=
  let percent := Math_max 0%float (Math_min 100%float percentage) in
  match direction with
  | row =>
      let splitPoint := (left box + (getWidth box * percent) / 100)%float in
      (createBoundingBox (top box) splitPoint (bottom box) (left box),
       createBoundingBox (top box) (right box) (bottom box) splitPoint)
  | column =>
      let splitPoint := (top box + (getHeight box * percent) / 100)%float in
      (createBoundingBox (top box) (right box) splitPoint (left box),
       createBoundingBox splitPoint (right box) (bottom box) (left box))
  end.

(** [x >= box.left && x <= box.right && y >= box.top && y <= box.bottom];
    [a >= b] is [b <= a] on doubles, NaN included. *)
Definition containsPoint (box : BoundingBox) (x y : number) : bool :=
  (left box <=? x)%float && (x <=? right box)%float
  && (top box <=? y)%float && (y <=? bottom box)%float.

(** ** Concrete trees of the scenarios *)

Definition scenarioA : MosaicNode string :=
  Parent row (Leaf "a"%string) (Leaf "b"%string) (Some 50%float).

Definition scenarioB : MosaicNode string :=
  Parent row (Leaf "a"%string)
    (Parent column (Leaf "b"%string) (Leaf "c"%string) (Some 50%float))
    (Some 40%float).

(** A tree whose first child is itself a split. *)
Definition leftHeavy : MosaicNode string :=
  Parent row
    (Parent column (Leaf "a"%string) (Leaf "b"%string) (Some 50%float))
    (Leaf "c"%string) (Some 50%float).

(** A tree three splits deep along [first]. *)
Definition leftDeep : MosaicNode string :=
  Parent row leftHeavy (Leaf "d"%string) (Some 50%float).

(** The box [MosaicRoot] starts from: [createBoundingBox(0, 100, 100, 0)]. *)
Definition fullBox : BoundingBox :=
  createBoundingBox 0%float 100%float 100%float 0%float.

(** A box from 0.1 to 0.3 across (the doubles nearest to these), one high. *)
Definition narrowBox : BoundingBox :=
  createBoundingBox 0%float 0x1.3333333333333p-2%float 1%float
    0x1.999999999999ap-4%float.

(** ** Specification-side vocabulary *)

Section Vocabulary.

Context {T : Type}.

Local Abbreviation Node := (MosaicNode T).

(** Replacing the subtree at [p] by [n]: what a [$set] update means. Paths
    that run into a leaf leave the tree as it is. *)
Fixpoint replaceAt (t : Node) (p : MosaicPath) (n : Node) {struct p}
  : Node :=
  match p with
  | [] => n
  | b :: r =>
      match t with
      | Leaf _ => t
      | Parent d f s pc => setChild b d f s pc (replaceAt (child b f s) r n)
      end
  end.

(** The new joint node in the words of the specification: direction [row]
    for LEFT/RIGHT and [column] for TOP/BOTTOM, the source [first] for
    LEFT/TOP and [second] for RIGHT/BOTTOM, split percentage 50. *)
Definition expectedJoint (side : MosaicDropTargetPosition)
    (source destination : Node) : Node :=
  match side with
  | LEFT => Parent row source destination (Some 50%float)
  | RIGHT => Parent row destination source (Some 50%float)
  | TOP => Parent column source destination (Some 50%float)
  | BOTTOM => Parent column destination source (Some 50%float)
  end.


(** What a successful relocation looks like: the batch is produced without
    an error, applying it gives [result], no leaf is lost or duplicated, and
    at [loc] sits the new joint of the source and [dst']. *)
Definition relocatedTo (root src : Node) (S D : MosaicPath)
    (pos : MosaicDropTargetPosition) (result : Node) (loc : MosaicPath)
    (dst' : Node) : Prop :=
  exists updates,
    createDragToUpdates root S D pos = Ok updates
    /\ updateTree (Some root) updates = Some result
    /\ Permutation (getLeaves (Some result)) (getLeaves (Some root))
    /\ getNodeAtPath result loc = Some (expectedJoint pos src dst').

End Vocabulary.

(** [destinationPath] is a strict prefix of [sourcePath]. *)
Definition destinationAboveSource (S D : MosaicPath) : Prop :=
  exists R, R <> [] /\ S = D ++ R.

(** Source and destination are the two children of one split. *)
Definition siblingPaths (S D : MosaicPath) : Prop :=
  exists Q b, S = Q ++ [b] /\ D = Q ++ [getOtherBranch b].

(** The source has a parent, and the destination does not lie at or below
    that parent. *)
Definition sourceParentOffDestination (S D : MosaicPath) : Prop :=
  S <> [] /\ forall R, D <> removelast S ++ R.

(** A point strictly inside a box. *)
Definition interiorContains (box : BoundingBox) (x y : number) : bool :=
  (left box <? x)%float && (x <? right box)%float
  && (top box <? y)%float && (y <? bottom box)%float.

(** The boundary between the two boxes of [split box percentage direction]:
    the [right] edge of the first box for [row], its [bottom] edge for
    [column]. *)
Definition splitBoundary (box : BoundingBox) (percentage : number)
    (direction : MosaicDirection) : number :=
  match direction with
  | row => right (fst (split box percentage direction))
  | column => bottom (fst (split box percentage direction))
  end.

(** The boundary lies within the extent of the box along the split axis. *)
Definition boundaryWithin (box : BoundingBox) (percentage : number)
    (direction : MosaicDirection) : bool :=
  let m := splitBoundary box percentage direction in
  match direction with
  | row => (left box <=? m)%float && (m <=? right box)%float
  | column => (top box <=? m)%float && (m <=? bottom box)%float
  end.

(** The relocation invariant as the specification words it, at one input:
    the batch applies, no leaf is lost or duplicated, and somewhere in the
    result sits the new joint of the subtree originally at the source path
    and the subtree originally at the destination path. *)
Definition dragInvariant {T : Type} (root : MosaicNode T)
    (S D : MosaicPath) (side : MosaicDropTargetPosition) : Prop :=
  forall src dst,
    getNodeAtPath root S = Some src ->
    getNodeAtPath root D = Some dst ->
    S <> D ->
    exists updates result,
      createDragToUpdates root S D side = Ok updates
      /\ updateTree (Some root) updates = Some result
      /\ Permutation (getLeaves (Some result)) (getLeaves (Some root))
      /\ exists loc,
           getNodeAtPath result loc = Some (expectedJoint side src dst).

(** The rebased two-update batch as the specification words it, at one
    input: when the source's parent path is a strict prefix of the
    destination path and both paths take the same branch right after it, the
    batch is the removal of the source followed by a [$set] of the joint at
    the destination path with that one segment deleted. *)
Definition rebasedBatch {T : Type} (root : MosaicNode T)
    (S D : MosaicPath) (side : MosaicDropTargetPosition) : Prop :=
  forall src dst,
    getNodeAtPath root S = Some src ->
    getNodeAtPath root D = Some dst ->
    S <> D ->
    (exists r, r <> [] /\ D = removelast S ++ r) ->
    nth_error D (length (removelast S)) = nth_error S (length (removelast S)) ->
    exists removal,
      createRemoveUpdate (Some root) S = Ok removal
      /\ createDragToUpdates root S D side =
         Ok [removal;
             mkUpdate
               (removelast S ++ skipn (length (removelast S) + 1) D)
               (SpecSet (expectedJoint side src dst))].

(** The two boxes of a split cover exactly the points of the box. *)
Definition splitCovers (box : BoundingBox) (percentage : number)
    (direction : MosaicDirection) : Prop :=
  forall x y,
    containsPoint box x y =
    containsPoint (fst (split box percentage direction)) x y
    || containsPoint (snd (split box percentage direction)) x y.

(** No point lies strictly inside both boxes of a split. *)
Definition splitInteriorsDisjoint (box : BoundingBox) (percentage : number)
    (direction : MosaicDirection) : Prop :=
  forall x y,
    interiorContains (fst (split box percentage direction)) x y
    && interiorContains (snd (split box percentage direction)) x y = false.

(** ** Further functions of the same files *)

(** [Corner] of [mosaic.types.ts]. *)
Inductive Corner : Set := TOP_LEFT | TOP_RIGHT | BOTTOM_LEFT | BOTTOM_RIGHT.

Definition direction_eqb (a b : MosaicDirection) : bool :=
  match a, b with
  | row, row | column, column => true
  | _, _ => false
  end.

(** The branch [getPathToCorner] pushes at a split of the given direction. *)
Definition cornerBranch (direction : MosaicDirection) (corner : Corner)
  : MosaicBranch :=
  let isTop := match corner with TOP_LEFT | TOP_RIGHT => true | _ => false end in
  let isLeft :=
    match corner with TOP_LEFT | BOTTOM_LEFT => true | _ => false end in
  if (direction_eqb direction column && isTop)
     || (direction_eqb direction row && isLeft)
  then first else second.

(** The [throw new Error('Cannot expand root node')] of
    [createExpandUpdate]. *)
Inductive ExpandError : Set := CannotExpandRoot.

(** What an action of the [Mosaic] component does with the tree it holds:
    it returns early, it hands a new tree to [handleChange], or it lets an
    exception escape. *)
Inductive Outcome (T : Type) : Type :=
| Unchanged
| Changed (newTree : option (MosaicNode T))
| Raised (error : ExpandError).

Arguments Unchanged {T}.
Arguments Changed {T} newTree.
Arguments Raised {T} error.

(** What [MosaicNodeRenderer] puts on the screen: a tile for a leaf, with the
    path handed to [renderTile] and to the four drop targets, and a [Split]
    bar for a parent. *)
Inductive Rendered (T : Type) : Type :=
| Tile (id : T) (tilePath : MosaicPath) (boundingBox : BoundingBox)
| SplitBar (direction : MosaicDirection) (percentage : number)
           (boundingBox : BoundingBox).

Arguments Tile {T} id tilePath boundingBox.
Arguments SplitBar {T} direction percentage boundingBox.

(** The [ViewId] keys of the example application. *)
Inductive ViewId : Set := view_a | view_b | view_c | view_d | view_new.

Section MoreMosaic.

Context {T : Type}.

Local Abbreviation Node := (MosaicNode T).

(** The [while (isParent(current))] loop of [getPathToCorner]. *)
Fixpoint getPathToCorner (node : Node) (corner : Corner) : MosaicPath :=
  match node with
  | Leaf _ => []
  | Parent direction f s _ =>
      let branch := cornerBranch direction corner in
      branch :: getPathToCorner (child branch f s) corner
  end.

(** The recursion of [getTreeDepth] below a non-null node. *)
Fixpoint nodeDepth (node : Node) : nat :=
  match node with
  | Leaf _ => 1
  | Parent _ f s _ => 1 + Nat.max (nodeDepth f) (nodeDepth s)
  end.

Definition getTreeDepth (node : option Node) : nat :=
  match node with
  | None => 0
  | Some n => nodeDepth n
  end.

(** [createExpandUpdate(path, percentage = 70)]; [None] stands for an
    argument left [undefined]. *)
Definition createExpandUpdate (path : MosaicPath) (percentage : option number)
  : ExpandError + MosaicUpdate T :=
  let percentage := match percentage with Some p => p | None => 70%float end in
  match path with
  | [] => inl CannotExpandRoot
  | _ :: _ =>
      let parentPath := removelast path in
      let branch := last path first in
      let splitPercentage :=
        match branch with
        | first => percentage
        | second => (100 - percentage)%float
        end in
      inr (mkUpdate parentPath
             (SpecPatch (Some splitPercentage) None None None))
  end.

Definition createReplaceUpdate (path : MosaicPath) (node : Node)
  : MosaicUpdate T :=
  mkUpdate path (SpecSet node).

(** [createSplitUpdate(path, newNode, direction = 'row')]. *)
Definition createSplitUpdate (path : MosaicPath) (newNode : T)
    (direction : option MosaicDirection) : MosaicUpdate T :=
  let direction := match direction with Some d => d | None => row end in
  mkUpdate path
    (SpecSet (Parent direction (Leaf newNode) (Leaf newNode) (Some 50%float))).

(** The update [handleSplitChange] and [handleSplitRelease] of
    [MosaicNodeRenderer] send when a split bar is dragged. *)
Definition splitPercentageUpdate (path : MosaicPath) (newPercentage : number)
  : MosaicUpdate T :=
  mkUpdate path (SpecPatch (Some newPercentage) None None None).

(** [MosaicNodeRenderer]: the tiles and split bars in the order of the
    returned elements. *)
Fixpoint MosaicNodeRenderer (node : Node) (path : MosaicPath)
    (boundingBox : BoundingBox) : list (Rendered T) :=
  match node with
  | Leaf id => [Tile id path boundingBox]
  | Parent direction f s sp =>
      let splitPercentage :=
        match sp with Some v => v | None => 50%float end in
      let boxes := split boundingBox splitPercentage direction in
      MosaicNodeRenderer f (path ++ [first]) (fst boxes)
        ++ [SplitBar direction splitPercentage boundingBox]
        ++ MosaicNodeRenderer s (path ++ [second]) (snd boxes)
  end.

(** [MosaicRoot]: nothing for the null tree, else the rendering of the root
    in [createBoundingBox(0, 100, 100, 0)]. *)
Definition MosaicRoot (root : option Node) : list (Rendered T) :=
  match root with
  | None => []
  | Some r =>
      MosaicNodeRenderer r []
        (createBoundingBox 0%float 100%float 100%float 0%float)
  end.

End MoreMosaic.

(** The actions of the [Mosaic] component, as functions of the tree the
    component holds ([currentValue]); the callbacks [onChange] and
    [onRelease] are taken not to throw. *)
Module mosaicActions.

Section Actions.

Context {T : Type}.

Definition expand (currentValue : option (MosaicNode T)) (path : MosaicPath)
    (percentage : option number) : Outcome T :=
  match currentValue with
  | None => Unchanged
  | Some _ =>
      match createExpandUpdate path percentage with
      | inl e => Raised e
      | inr update => Changed (updateTree currentValue [update])
      end
  end.

(** The [catch] of [remove] hands [null] to [handleChange]. *)
Definition remove (currentValue : option (MosaicNode T)) (path : MosaicPath)
  : Outcome T :=
  match currentValue with
  | None => Unchanged
  | Some _ =>
      match createRemoveUpdate currentValue path with
      | Ok update => Changed (updateTree currentValue [update])
      | Throw _ => Changed None
      end
  end.

Definition replaceWith (currentValue : option (MosaicNode T))
    (path : MosaicPath) (node : MosaicNode T) : Outcome T :=
  match currentValue with
  | None => Unchanged
  | Some _ =>
      Changed (updateTree currentValue [createReplaceUpdate path node])
  end.

End Actions.

End mosaicActions.

(** The pointer arithmetic of [handleMouseMove] and [handleTouchMove] in the
    [Split] component: the percentage handed to [onChange], from the
    percentage and pointer position at the start of the drag, the size of
    the parent element and the pointer position now. *)
Definition handleMouseMove (direction : MosaicDirection)
    (startPercentage minimumPaneSizePercentage : number)
    (parentRectWidth parentRectHeight : number) (boundingBox : BoundingBox)
    (startX startY clientX clientY : number) : number :=
  let parentWidth := (right boundingBox - left boundingBox)%float in
  let parentHeight := (bottom boundingBox - top boundingBox)%float in
  let newPercentage :=
    match direction with
    | row =>
        let deltaX := (clientX - startX)%float in
        let actualWidth := (parentRectWidth * parentWidth / 100)%float in
        let deltaPercentage := (deltaX / actualWidth * 100)%float in
        (startPercentage + deltaPercentage)%float
    | column =>
        let deltaY := (clientY - startY)%float in
        let actualHeight := (parentRectHeight * parentHeight / 100)%float in
        let deltaPercentage := (deltaY / actualHeight * 100)%float in
        (startPercentage + deltaPercentage)%float
    end in
  Math_max minimumPaneSizePercentage
    (Math_min (100 - minimumPaneSizePercentage)%float newPercentage).

(** [autoArrange] of the example application, as a function of the state
    [currentNode]; every [ViewId] is a non-empty string, so [!currentNode]
    holds for null only. *)
Definition autoArrange (currentNode : option (MosaicNode ViewId))
  : option (MosaicNode ViewId) :=
  match currentNode with
  | None => None
  | Some _ =>
      createBalancedTreeFromLeaves (getLeaves currentNode) row
  end.

(** [addWindow] of the example application; [createNode] returns ['new']. *)
Definition addWindow (currentNode : option (MosaicNode ViewId))
  : option (MosaicNode ViewId) :=
  let newId := view_new in
  match currentNode with
  | None => Some (Leaf newId)
  | Some _ =>
      createBalancedTreeFromLeaves (getLeaves currentNode ++ [newId]) row
  end.

(** Directions alternate from [d] downwards and every split is at 50. *)
Fixpoint alternatesFrom {T : Type} (d : MosaicDirection) (t : MosaicNode T)
  : Prop :=
  match t with
  | Leaf _ => True
  | Parent d' f s sp =>
      d' = d /\ sp = Some 50%float
      /\ alternatesFrom (getOtherDirection d) f
      /\ alternatesFrom (getOtherDirection d) s
  end.

(** The tiles of a rendering, the split bars dropped. *)
Fixpoint tilesOf {T : Type} (rs : list (Rendered T))
  : list (T * MosaicPath) :=
  match rs with
  | [] => []
  | Tile id p _ :: rest => (id, p) :: tilesOf rest
  | SplitBar _ _ _ :: rest => tilesOf rest
  end.

(** The number of split bars of a rendering. *)
Fixpoint splitBarsOf {T : Type} (rs : list (Rendered T)) : nat :=
  match rs with
  | [] => 0
  | Tile _ _ _ :: rest => splitBarsOf rest
  | SplitBar _ _ _ :: rest => S (splitBarsOf rest)
  end.

(** [MosaicKey = string | number]. *)
Inductive MosaicKey : Set :=
| KeyString (s : string)
| KeyNumber (n : number).

(** What [!node] tests on a node: a split is an object and so truthy; a
    string key is falsy when empty; a number key is falsy when it is zero
    (of either sign) or NaN. *)
Definition truthy (node : MosaicNode MosaicKey) : bool :=
  match node with
  | Parent _ _ _ _ => true
  | Leaf (KeyString s) => negb (String.eqb s EmptyString)
  | Leaf (KeyNumber n) => negb (n =? 0)%float && negb (is_nan n)
  end.

(** The [split] action of [MosaicWindow] once [createNode] has delivered
    [newNode]: [root] is what [getRoot] returns, [path] the path of the
    window. *)
Definition windowSplit (root : option (MosaicNode MosaicKey))
    (path : MosaicPath) (newNode : MosaicKey) : Outcome MosaicKey :=
  match root with
  | None => Unchanged
  | Some r =>
      match getNodeAtPath r path with
      | None => Unchanged
      | Some currentNodeAtPath =>
          if truthy currentNodeAtPath then
            mosaicActions.replaceWith root path
              (Parent row currentNodeAtPath (Leaf newNode) (Some 50%float))
          else Unchanged
      end
  end.

(** At every split the two sides hold the same number of leaves, or the
    second holds one more. *)
Fixpoint evenlySplit {T : Type} (t : MosaicNode T) : Prop :=
  match t with
  | Leaf _ => True
  | Parent _ f s _ =>
      length (nodeLeaves f) <= length (nodeLeaves s)
      /\ length (nodeLeaves s) <= length (nodeLeaves f) + 1
      /\ evenlySplit f /\ evenlySplit s
  end.

(** An update that is a patch, not a [$set]. *)
Definition isPatch {T : Type} (u : MosaicUpdate T) : bool :=
  match spec u with SpecSet _ => false | SpecPatch _ _ _ _ => true end.

(** ** Paths *)

Lemma branch_eqb_eq (a b : MosaicBranch) : branch_eqb a b = true <-> a = b.
Proof. destruct a, b; simpl; split; congruence. Qed.

Lemma branch_eqb_refl (a : MosaicBranch) : branch_eqb a a = true.
Proof. now destruct a. Qed.

Lemma getOtherBranch_neq (b : MosaicBranch) : getOtherBranch b <> b.
Proof. destruct b; discriminate. Qed.

Lemma branch_neq_other (a b : MosaicBranch) : a <> b -> a = getOtherBranch b.
Proof. destruct a, b; simpl; congruence. Qed.

Lemma path_eqb_eq (p q : MosaicPath) : path_eqb p q = true <-> p = q.
Proof.
  revert q. induction p as [|b p IH]; intros [|c q]; simpl;
    try (split; congruence).
  rewrite andb_true_iff, branch_eqb_eq, IH. split.
  - intros [-> ->]. reflexivity.
  - intros E. injection E as -> ->. now split.
Qed.

Lemma path_eqb_neq (p q : MosaicPath) : p <> q -> path_eqb p q = false.
Proof.
  intros H. destruct (path_eqb p q) eqn:E; [|reflexivity].
  apply path_eqb_eq in E. contradiction.
Qed.

Lemma everyMatches_prefix (p q : MosaicPath) :
  everyMatches p q = true <-> exists r, q = p ++ r.
Proof.
  revert q. induction p as [|b p IH]; intros q; simpl.
  - split; [intros _; now exists q | reflexivity].
  - destruct q as [|c q].
    + split; [discriminate | intros [r Hr]; discriminate].
    + rewrite andb_true_iff, branch_eqb_eq, IH. split.
      * intros [-> [r ->]]. now exists r.
      * intros [r Hr]. injection Hr as -> ->. split; [reflexivity | now exists r].
Qed.

Lemma everyMatches_app (p r : MosaicPath) : everyMatches p (p ++ r) = true.
Proof. apply everyMatches_prefix. now exists r. Qed.

Lemma everyMatches_not_prefix (p q : MosaicPath) :
  (forall r, q <> p ++ r) -> everyMatches p q = false.
Proof.
  intros H. destruct (everyMatches p q) eqn:E; [|reflexivity].
  apply everyMatches_prefix in E. destruct E as [r Hr]. now destruct (H r).
Qed.

Lemma path_snoc (p : MosaicPath) :
  p <> [] -> exists q b, p = q ++ [b].
Proof.
  intros H. destruct (exists_last H) as [q [b Hq]]. now exists q, b.
Qed.

Lemma removelast_snoc (q : MosaicPath) (b : MosaicBranch) :
  removelast (q ++ [b]) = q.
Proof. apply removelast_last. Qed.

Lemma last_snoc (q : MosaicPath) (b d : MosaicBranch) :
  last (q ++ [b]) d = b.
Proof. apply last_last. Qed.

Lemma snoc_not_nil (q : MosaicPath) (b : MosaicBranch) : q ++ [b] <> [].
Proof. destruct q; discriminate. Qed.

(** Two paths neither of which is a prefix of the other part ways at some
    index. *)
Lemma paths_diverge (p q : MosaicPath) :
  (forall r, q <> p ++ r) -> (forall r, p <> q ++ r) ->
  exists c x p' q', p = c ++ x :: p' /\ q = c ++ getOtherBranch x :: q'.
Proof.
  revert q. induction p as [|b p IH]; intros q Hpq Hqp.
  - now destruct (Hpq q).
  - destruct q as [|c q]; [now destruct (Hqp (b :: p))|].
    destruct (branch_eqb b c) eqn:E.
    + apply branch_eqb_eq in E. subst c.
      destruct (IH q) as (c & x & p' & q' & -> & ->).
      * intros r Hr. apply (Hpq r). simpl. now rewrite Hr.
      * intros r Hr. apply (Hqp r). simpl. now rewrite Hr.
      * now exists (b :: c), x, p', q'.
    + exists [], b, p, q. simpl. split; [reflexivity|].
      f_equal. apply branch_neq_other. intros ->.
      now rewrite branch_eqb_refl in E.
Qed.

(** ** Lookup and replacement *)

Section TreeFacts.

Context {T : Type}.

Local Abbreviation Node := (MosaicNode T).

Lemma getNodeAtPath_app (t : Node) (p q : MosaicPath) :
  getNodeAtPath t (p ++ q) =
  match getNodeAtPath t p with
  | Some n => getNodeAtPath n q
  | None => None
  end.
Proof.
  revert t. induction p as [|b p IH]; intros t; simpl; [reflexivity|].
  destruct t; [reflexivity | apply IH].
Qed.

Lemma getNodeAtPath_snoc (t src : Node) (Q : MosaicPath) (b : MosaicBranch) :
  getNodeAtPath t (Q ++ [b]) = Some src ->
  exists d f s pc,
    getNodeAtPath t Q = Some (Parent d f s pc) /\ src = child b f s.
Proof.
  rewrite getNodeAtPath_app. destruct (getNodeAtPath t Q) as [n|]; [|discriminate].
  simpl. destruct n as [x|d f s pc]; [discriminate|].
  intros E. injection E as <-. now exists d, f, s, pc.
Qed.

Lemma applyUpdateAtPath_set (t : Node) (b : MosaicBranch) (r : MosaicPath)
    (n : Node) :
  applyUpdateAtPath t (b :: r) (SpecSet n) = replaceAt t (b :: r) n.
Proof.
  revert t b. induction r as [|c r IH]; intros t b;
    destruct t as [x|d f s pc]; try reflexivity.
  change (setChild b d f s pc
            (applyUpdateAtPath (child b f s) (c :: r) (SpecSet n)) =
          setChild b d f s pc (replaceAt (child b f s) (c :: r) n)).
  now rewrite IH.
Qed.

(** A [$set] update, applied by one iteration of [updateTree], replaces the
    subtree at its path. *)
Lemma applyUpdate_set (t : Node) (p : MosaicPath) (n : Node) :
  applyUpdate t (mkUpdate p (SpecSet n)) = replaceAt t p n.
Proof.
  destruct p as [|b r]; [reflexivity|]. apply applyUpdateAtPath_set.
Qed.

Lemma getNodeAtPath_setChild_same (b : MosaicBranch) d (f s : Node) pc v r :
  getNodeAtPath (setChild b d f s pc v) (b :: r) = getNodeAtPath v r.
Proof. destruct b; reflexivity. Qed.

Lemma getNodeAtPath_setChild_other (b : MosaicBranch) d (f s : Node) pc v r :
  getNodeAtPath (setChild b d f s pc v) (getOtherBranch b :: r) =
  getNodeAtPath (Parent d f s pc) (getOtherBranch b :: r).
Proof. destruct b; reflexivity. Qed.

Lemma getNodeAtPath_replaceAt (t x n : Node) (p q : MosaicPath) :
  getNodeAtPath t p = Some x ->
  getNodeAtPath (replaceAt t p n) (p ++ q) = getNodeAtPath n q.
Proof.
  revert t. induction p as [|b p IH]; intros t H; [reflexivity|].
  destruct t as [y|d f s pc]; [discriminate|].
  cbn [replaceAt]. rewrite <- app_comm_cons.
  rewrite getNodeAtPath_setChild_same. now apply IH.
Qed.

Lemma getNodeAtPath_replaceAt_same (t x n : Node) (p : MosaicPath) :
  getNodeAtPath t p = Some x ->
  getNodeAtPath (replaceAt t p n) p = Some n.
Proof.
  intros H. rewrite <- (app_nil_r p) at 2.
  now rewrite (getNodeAtPath_replaceAt t x n p [] H).
Qed.

(** Replacing below one branch does not disturb what lies below the other. *)
Lemma getNodeAtPath_replaceAt_off (t n : Node) (c p q : MosaicPath)
    (x : MosaicBranch) :
  getNodeAtPath (replaceAt t (c ++ x :: p) n) (c ++ getOtherBranch x :: q) =
  getNodeAtPath t (c ++ getOtherBranch x :: q).
Proof.
  revert t. induction c as [|b c IH]; intros t.
  - simpl app. cbn [replaceAt]. destruct t as [y|d f s pc]; [reflexivity|].
    apply getNodeAtPath_setChild_other.
  - simpl app. cbn [replaceAt]. destruct t as [y|d f s pc]; [reflexivity|].
    rewrite getNodeAtPath_setChild_same. cbn [getNodeAtPath]. apply IH.
Qed.

Lemma replaceAt_twice (t n m : Node) (p : MosaicPath) :
  replaceAt (replaceAt t p n) p m = replaceAt t p m.
Proof.
  revert t. induction p as [|b p IH]; intros t; simpl; [reflexivity|].
  destruct t as [y|d f s pc]; [reflexivity|].
  destruct b; simpl; now rewrite IH.
Qed.

(** The leaves of a tree, cut around the subtree at a resolving path. *)
Lemma nodeLeaves_replaceAt (t x : Node) (p : MosaicPath) :
  getNodeAtPath t p = Some x ->
  exists l1 l2,
    nodeLeaves t = l1 ++ nodeLeaves x ++ l2 /\
    forall n, nodeLeaves (replaceAt t p n) = l1 ++ nodeLeaves n ++ l2.
Proof.
  revert t. induction p as [|b p IH]; intros t; simpl.
  - intros E. injection E as ->. exists [], []. split.
    + now rewrite app_nil_r.
    + intros n. now rewrite app_nil_r.
  - destruct t as [y|d f s pc]; [discriminate|]. intros H.
    destruct (IH _ H) as (l1 & l2 & E & R). destruct b; simpl in *.
    + exists l1, (l2 ++ nodeLeaves s). split.
      * rewrite E. now rewrite <- !app_assoc.
      * intros n. rewrite R. now rewrite <- !app_assoc.
    + exists (nodeLeaves f ++ l1), l2. split.
      * rewrite E. now rewrite <- !app_assoc.
      * intros n. rewrite R. now rewrite <- !app_assoc.
Qed.

Lemma nodeLeaves_children (b : MosaicBranch) d (f s : Node) pc :
  Permutation (nodeLeaves (Parent d f s pc))
    (nodeLeaves (child b f s) ++ nodeLeaves (child (getOtherBranch b) f s)).
Proof.
  destruct b; simpl; [reflexivity | apply Permutation_app_comm].
Qed.

Lemma nodeLeaves_jointNode (side : MosaicDropTargetPosition) (a b : Node) :
  Permutation (nodeLeaves (jointNode side a b)) (nodeLeaves a ++ nodeLeaves b).
Proof.
  destruct side; simpl; first [reflexivity | apply Permutation_app_comm].
Qed.

Lemma jointNode_expected (side : MosaicDropTargetPosition) (a b : Node) :
  jointNode side a b = expectedJoint side a b.
Proof. now destruct side. Qed.

(** Removing the node at [Q ++ [b]]: the update [createRemoveUpdate] builds,
    and what applying it does to the leaves. *)
Lemma createRemoveUpdate_snoc (t : Node) (Q : MosaicPath) (b : MosaicBranch)
    d (f s : Node) pc :
  getNodeAtPath t Q = Some (Parent d f s pc) ->
  createRemoveUpdate (Some t) (Q ++ [b]) =
  Ok (mkUpdate Q (SpecSet (child (getOtherBranch b) f s))).
Proof.
  intros H. unfold createRemoveUpdate.
  destruct (Q ++ [b]) as [|c r] eqn:E; [now destruct (snoc_not_nil Q b)|].
  rewrite <- E. rewrite removelast_snoc, last_snoc.
  unfold getAndAssertNodeAtPathExists. now rewrite H.
Qed.

Lemma nodeLeaves_remove (t : Node) (Q : MosaicPath) (b : MosaicBranch)
    d (f s : Node) pc :
  getNodeAtPath t Q = Some (Parent d f s pc) ->
  Permutation (nodeLeaves t)
    (nodeLeaves (child b f s)
       ++ nodeLeaves (replaceAt t Q (child (getOtherBranch b) f s))).
Proof.
  intros H. destruct (nodeLeaves_replaceAt _ _ _ H) as (l1 & l2 & E & R).
  rewrite E, R.
  rewrite (nodeLeaves_children b d f s pc).
  rewrite <- !app_assoc.
  rewrite (Permutation_app_comm l1
            (nodeLeaves (child b f s)
               ++ nodeLeaves (child (getOtherBranch b) f s) ++ l2)).
  rewrite <- !app_assoc. apply Permutation_app_head.
  rewrite (Permutation_app_comm l1). now rewrite <- !app_assoc.
Qed.

End TreeFacts.

(** ** Balanced trees and node counts *)

Section Balanced.

Context {T : Type}.

Local Abbreviation Node := (MosaicNode T).

Lemma nodeLeaves_nonempty (t : Node) : 1 <= length (nodeLeaves t).
Proof.
  induction t as [x|d f IHf s IHs pc]; simpl; [lia|].
  rewrite length_app. lia.
Qed.

Lemma nodeCount_leaves (t : Node) :
  nodeCount t + 1 = 2 * length (nodeLeaves t).
Proof.
  induction t as [x|d f IHf s IHs pc]; simpl; [reflexivity|].
  rewrite length_app. lia.
Qed.

Lemma getLeaves_balanced (leaves : list T) (startDirection : MosaicDirection) :
  getLeaves (createBalancedTreeFromLeaves leaves startDirection) = leaves.
Proof.
  funelim (createBalancedTreeFromLeaves leaves startDirection);
    try reflexivity.
  clear Heqcall H0.
  remember (l0 :: l1 :: ls) as L eqn:EL. clear EL.
  remember (length L / 2) as mid eqn:Emid. clear Emid.
  pose proof (firstn_skipn mid L) as HL. revert H H1.
  destruct (createBalancedTreeFromLeaves (firstn mid L) _) as [f|];
    destruct (createBalancedTreeFromLeaves (skipn mid L) _) as [s|];
    simpl; intros Hf Hs; rewrite <- HL, <- Hf, <- Hs;
    rewrite ?app_nil_r; reflexivity.
Qed.

End Balanced.

(** ** Batches *)

Section BatchFacts.

Context {T : Type}.

Local Abbreviation Node := (MosaicNode T).

Lemma updateTree_app (root : Node) (us1 us2 : list (MosaicUpdate T)) :
  updateTree (Some root) (us1 ++ us2) =
  updateTree (updateTree (Some root) us1) us2.
Proof. simpl. now rewrite fold_left_app. Qed.




End BatchFacts.

(** ** Drag relocation *)

Lemma isDestinationParentOfSource_above (D R : MosaicPath) :
  R <> [] -> isDestinationParentOfSource (D ++ R) D = true.
Proof.
  intros HR. unfold isDestinationParentOfSource.
  rewrite everyMatches_app, andb_true_r. apply Nat.ltb_lt.
  rewrite length_app. destruct R; [contradiction | simpl; lia].
Qed.

Lemma isDestinationParentOfSource_spec (S D : MosaicPath) :
  isDestinationParentOfSource S D = true <-> destinationAboveSource S D.
Proof.
  split.
  - unfold isDestinationParentOfSource. rewrite andb_true_iff.
    intros [Hl He]. apply everyMatches_prefix in He. destruct He as [R ->].
    exists R. split; [|reflexivity]. intros ->.
    rewrite app_nil_r in Hl. apply Nat.ltb_lt in Hl. lia.
  - intros (R & HR & ->). now apply isDestinationParentOfSource_above.
Qed.

Lemma adjusted_siblings (Q : MosaicPath) (b c : MosaicBranch) :
  adjustedDestinationPath (Q ++ [b]) (Q ++ [c]) = Q.
Proof.
  unfold adjustedDestinationPath. rewrite !removelast_snoc.
  rewrite Nat.eqb_refl. rewrite <- (app_nil_r Q) at 2.
  now rewrite everyMatches_app.
Qed.

Lemma removelast_prefix (Q D r : MosaicPath) :
  removelast D = Q ++ r -> (exists r', D = Q ++ r').
Proof.
  intros H. destruct D as [|x D].
  - simpl in H. destruct Q; [now exists [] | discriminate].
  - assert (Hne : x :: D <> []) by discriminate.
    rewrite (app_removelast_last first Hne), H, <- app_assoc. eauto.
Qed.

Lemma adjusted_off (Q D : MosaicPath) (b : MosaicBranch) :
  (forall R, D <> Q ++ R) -> adjustedDestinationPath (Q ++ [b]) D = D.
Proof.
  intros H. unfold adjustedDestinationPath. rewrite removelast_snoc.
  rewrite (everyMatches_not_prefix Q D H), !andb_false_r.
  rewrite (everyMatches_not_prefix Q (removelast D)), andb_false_r;
    [reflexivity|].
  intros r Hr. destruct (removelast_prefix _ _ _ Hr) as [r' ->].
  now destruct (H r').
Qed.

Lemma adjusted_below_source (Q rest : MosaicPath) (b : MosaicBranch) :
  Q <> [] -> rest <> [] ->
  adjustedDestinationPath (Q ++ [b]) (Q ++ b :: rest) = Q ++ rest.
Proof.
  intros HQ Hrest. unfold adjustedDestinationPath. rewrite removelast_snoc.
  assert (Hlen : length (removelast (Q ++ b :: rest)) = length Q + length rest).
  { assert (Hne : Q ++ b :: rest <> []) by (destruct Q; discriminate).
    pose proof (f_equal (@length _)
                  (app_removelast_last first Hne)) as E.
    rewrite !length_app in E. simpl in E. lia. }
  rewrite Hlen.
  assert (0 < length rest) by (destruct rest; [contradiction | simpl; lia]).
  assert (0 < length Q) by (destruct Q; [contradiction | simpl; lia]).
  replace (length Q =? length Q + length rest) with false
    by (symmetry; apply Nat.eqb_neq; lia).
  rewrite andb_false_l.
  replace (0 <? length Q) with true by (symmetry; apply Nat.ltb_lt; lia).
  replace (length Q <? length (Q ++ b :: rest)) with true
    by (symmetry; apply Nat.ltb_lt; rewrite length_app; simpl; lia).
  rewrite everyMatches_app. cbn [andb].
  rewrite !nth_error_app2, Nat.sub_diag by lia. cbn [nth_error optBranch_eqb].
  rewrite branch_eqb_refl. f_equal.
  rewrite skipn_app, skipn_all2 by lia.
  replace (length Q + 1 - length Q) with 1 by lia. reflexivity.
Qed.

Section DragFacts.

Context {T : Type}.

Local Abbreviation Node := (MosaicNode T).

Lemma getNodeAtPath_child (root : Node) (Q : MosaicPath) (b : MosaicBranch)
    d (f s : Node) pc :
  getNodeAtPath root Q = Some (Parent d f s pc) ->
  getNodeAtPath root (Q ++ [b]) = Some (child b f s).
Proof. intros H. rewrite getNodeAtPath_app, H. reflexivity. Qed.

(** The batch of the standard case: remove the source, then set the adjusted
    destination path. *)
Lemma drag_standard (root dst : Node) (Q D : MosaicPath) (b : MosaicBranch)
    (pos : MosaicDropTargetPosition) d (f s : Node) pc :
  getNodeAtPath root Q = Some (Parent d f s pc) ->
  getNodeAtPath root D = Some dst ->
  Q ++ [b] <> D ->
  isDestinationParentOfSource (Q ++ [b]) D = false ->
  createDragToUpdates root (Q ++ [b]) D pos =
  Ok [mkUpdate Q (SpecSet (child (getOtherBranch b) f s));
      mkUpdate (adjustedDestinationPath (Q ++ [b]) D)
        (SpecSet (jointNode pos (child b f s) dst))].
Proof.
  intros HQ HD Hne HA. unfold createDragToUpdates.
  rewrite (getNodeAtPath_child root Q b d f s pc HQ), HD.
  rewrite (path_eqb_neq _ _ Hne), HA.
  rewrite (createRemoveUpdate_snoc root Q b d f s pc HQ).
  destruct (Q ++ [b]) eqn:E; [now destruct (snoc_not_nil Q b)|].
  reflexivity.
Qed.

(** The batch when the destination is an ancestor of the source: one [$set]
    at the destination, joining the source with the destination from which
    the source has been removed. *)
Lemma drag_above (root dst : Node) (D R : MosaicPath) (b : MosaicBranch)
    (pos : MosaicDropTargetPosition) d (f s : Node) pc :
  getNodeAtPath root D = Some dst ->
  getNodeAtPath dst R = Some (Parent d f s pc) ->
  createDragToUpdates root (D ++ R ++ [b]) D pos =
  Ok [mkUpdate D
        (SpecSet (jointNode pos (child b f s)
                    (replaceAt dst R (child (getOtherBranch b) f s))))].
Proof.
  intros HD HR. unfold createDragToUpdates.
  rewrite getNodeAtPath_app, HD.
  rewrite (getNodeAtPath_child dst R b d f s pc HR).
  assert (Hne : D ++ R ++ [b] <> D).
  { intros E. apply (f_equal (@length _)) in E.
    rewrite !length_app in E. simpl in E. lia. }
  rewrite (path_eqb_neq _ _ Hne).
  rewrite isDestinationParentOfSource_above by apply snoc_not_nil.
  rewrite skipn_app, skipn_all, Nat.sub_diag. simpl skipn. simpl app.
  rewrite (createRemoveUpdate_snoc dst R b d f s pc HR).
  unfold updateTree. cbn [fold_left]. now rewrite applyUpdate_set.
Qed.

Lemma relocate_above (root src dst : Node) (D R : MosaicPath)
    (pos : MosaicDropTargetPosition) :
  getNodeAtPath root (D ++ R) = Some src ->
  getNodeAtPath root D = Some dst ->
  R <> [] ->
  exists result dst' removal,
    relocatedTo root src (D ++ R) D pos result D dst'
    /\ createRemoveUpdate (Some dst) R = Ok removal
    /\ updateTree (Some dst) [removal] = Some dst'.
Proof.
  intros HS HD HR. destruct (path_snoc R HR) as (R' & b & ->).
  rewrite getNodeAtPath_app, HD in HS.
  destruct (getNodeAtPath_snoc dst src R' b HS) as (d & f & s & pc & HP & ->).
  set (sib := child (getOtherBranch b) f s).
  set (dst' := replaceAt dst R' sib).
  set (joint := jointNode pos (child b f s) dst').
  exists (replaceAt root D joint), dst', (mkUpdate R' (SpecSet sib)).
  split; [exists [mkUpdate D (SpecSet joint)]; repeat split|split].
  - apply (drag_above root dst D R' b pos d f s pc HD HP).
  - unfold updateTree. cbn [fold_left]. now rewrite applyUpdate_set.
  - simpl. destruct (nodeLeaves_replaceAt root dst D HD) as (l1 & l2 & E & Rp).
    rewrite E, Rp. apply Permutation_app_head, Permutation_app_tail.
    unfold joint. rewrite nodeLeaves_jointNode.
    symmetry. apply (nodeLeaves_remove dst R' b d f s pc HP).
  - rewrite (getNodeAtPath_replaceAt_same root dst joint D HD).
    unfold joint. now rewrite jointNode_expected.
  - apply (createRemoveUpdate_snoc dst R' b d f s pc HP).
  - unfold updateTree. cbn [fold_left]. now rewrite applyUpdate_set.
Qed.

Lemma relocate_siblings (root src dst : Node) (Q : MosaicPath)
    (b : MosaicBranch) (pos : MosaicDropTargetPosition) :
  getNodeAtPath root (Q ++ [b]) = Some src ->
  getNodeAtPath root (Q ++ [getOtherBranch b]) = Some dst ->
  exists result,
    relocatedTo root src (Q ++ [b]) (Q ++ [getOtherBranch b]) pos result Q dst.
Proof.
  intros HS HD.
  destruct (getNodeAtPath_snoc root src Q b HS) as (d & f & s & pc & HP & ->).
  rewrite (getNodeAtPath_child root Q _ d f s pc HP) in HD.
  injection HD as <-.
  set (src := child b f s). set (dst := child (getOtherBranch b) f s).
  set (joint := jointNode pos src dst).
  assert (Hne : Q ++ [b] <> Q ++ [getOtherBranch b]).
  { intros E. apply app_inv_head in E. injection E as E.
    symmetry in E. now apply getOtherBranch_neq in E. }
  assert (HA : isDestinationParentOfSource (Q ++ [b]) (Q ++ [getOtherBranch b])
               = false).
  { unfold isDestinationParentOfSource. rewrite !length_app, Nat.ltb_irrefl.
    reflexivity. }
  exists (replaceAt root Q joint),
    [mkUpdate Q (SpecSet dst); mkUpdate Q (SpecSet joint)].
  repeat split.
  - rewrite (drag_standard root dst Q _ b pos d f s pc HP
               (getNodeAtPath_child root Q _ d f s pc HP) Hne HA).
    now rewrite adjusted_siblings.
  - unfold updateTree. cbn [fold_left].
    now rewrite !applyUpdate_set, replaceAt_twice.
  - simpl. destruct (nodeLeaves_replaceAt root _ Q HP) as (l1 & l2 & E & Rp).
    rewrite E, Rp. apply Permutation_app_head, Permutation_app_tail.
    unfold joint. rewrite nodeLeaves_jointNode.
    symmetry. apply nodeLeaves_children.
  - rewrite (getNodeAtPath_replaceAt_same root _ joint Q HP).
    unfold joint. now rewrite jointNode_expected.
Qed.

Lemma relocate_off (root src dst : Node) (Q D : MosaicPath)
    (b : MosaicBranch) (pos : MosaicDropTargetPosition) :
  getNodeAtPath root (Q ++ [b]) = Some src ->
  getNodeAtPath root D = Some dst ->
  (forall R, D <> Q ++ R) ->
  isDestinationParentOfSource (Q ++ [b]) D = false ->
  exists result, relocatedTo root src (Q ++ [b]) D pos result D dst.
Proof.
  intros HS HD Hoff HA.
  destruct (getNodeAtPath_snoc root src Q b HS) as (d & f & s & pc & HP & ->).
  set (src := child b f s). set (sib := child (getOtherBranch b) f s).
  set (joint := jointNode pos src dst).
  assert (Hne : Q ++ [b] <> D).
  { intros E. now destruct (Hoff [b]). }
  assert (Hup : forall r, Q <> D ++ r).
  { intros r E. rewrite E, <- app_assoc in HA.
    rewrite isDestinationParentOfSource_above in HA; [discriminate|].
    destruct r; discriminate. }
  destruct (paths_diverge Q D Hoff Hup) as (c & x & q' & d' & EQ & ED).
  assert (HD1 : getNodeAtPath (replaceAt root Q sib) D = Some dst).
  { rewrite EQ, ED, getNodeAtPath_replaceAt_off. now rewrite <- ED. }
  exists (replaceAt (replaceAt root Q sib) D joint),
    [mkUpdate Q (SpecSet sib); mkUpdate D (SpecSet joint)].
  repeat split.
  - rewrite (drag_standard root dst Q D b pos d f s pc HP HD Hne HA).
    now rewrite adjusted_off.
  - unfold updateTree. cbn [fold_left]. now rewrite !applyUpdate_set.
  - simpl. rewrite (nodeLeaves_remove root Q b d f s pc HP).
    fold src sib.
    destruct (nodeLeaves_replaceAt _ dst D HD1) as (l1 & l2 & E & Rp).
    rewrite E, Rp. unfold joint. rewrite nodeLeaves_jointNode.
    rewrite <- app_assoc. apply Permutation_app_swap_app.
  - rewrite (getNodeAtPath_replaceAt_same _ dst joint D HD1).
    unfold joint. now rewrite jointNode_expected.
Qed.

End DragFacts.

(** ** Order on doubles *)

Lemma SFcompare_antisym (a b : spec_float) :
  SFcompare b a = option_map CompOpp (SFcompare a b).
Proof.
  destruct a as [sa|sa| |sa ma ea], b as [sb|sb| |sb mb eb];
    try (destruct sa); try (destruct sb); try reflexivity; simpl;
    rewrite (Z.compare_antisym ea eb); destruct (ea ?= eb)%Z; simpl;
    try reflexivity; f_equal;
    change (Pos.compare_cont Eq mb ma) with (Pos.compare mb ma);
    change (Pos.compare_cont Eq ma mb) with (Pos.compare ma mb);
    rewrite (Pos.compare_antisym ma mb); now destruct (ma ?= mb)%positive.
Qed.

Lemma SFleb_trans (a b c : spec_float) :
  SFleb a b = true -> SFleb b c = true -> SFleb a c = true.
Proof.
  unfold SFleb.
  destruct a as [sa|sa| |sa ma ea], b as [sb|sb| |sb mb eb],
    c as [sc|sc| |sc mc ec];
    try (destruct sa); try (destruct sb); try (destruct sc);
    simpl; try congruence;
    change (Pos.compare_cont Eq ma mb) with (Pos.compare ma mb);
    change (Pos.compare_cont Eq mb mc) with (Pos.compare mb mc);
    change (Pos.compare_cont Eq ma mc) with (Pos.compare ma mc);
    destruct (Z.compare_spec ea eb), (Z.compare_spec eb ec),
      (Z.compare_spec ea ec); try lia; try congruence; subst;
    destruct (Pos.compare_spec ma mb), (Pos.compare_spec mb mc),
      (Pos.compare_spec ma mc); simpl; try lia; congruence.
Qed.

Lemma SFleb_not_nan_r (a b : spec_float) :
  SFleb a b = true -> b <> S754_nan.
Proof. intros H ->. now destruct a. Qed.

Lemma SFcompare_some (a b : spec_float) :
  a <> S754_nan -> b <> S754_nan -> exists c, SFcompare a b = Some c.
Proof.
  intros Ha Hb. destruct a, b; try contradiction; simpl; eauto.
Qed.

Lemma SFleb_total (a b : spec_float) :
  a <> S754_nan -> b <> S754_nan -> SFleb a b = false -> SFleb b a = true.
Proof.
  intros Ha Hb. unfold SFleb. rewrite (SFcompare_antisym a b).
  destruct (SFcompare_some a b Ha Hb) as [c ->]. now destruct c.
Qed.

Lemma SFltb_asym (a b : spec_float) :
  SFltb a b = true -> SFltb b a = false.
Proof.
  unfold SFltb. rewrite (SFcompare_antisym a b).
  destruct (SFcompare a b) as [[]|]; simpl; congruence.
Qed.

Lemma SFltb_leb (a b : spec_float) : SFltb a b = true -> SFleb a b = true.
Proof. unfold SFltb, SFleb. now destruct (SFcompare a b) as [[]|]. Qed.

Lemma is_nan_false (x : float) : is_nan x = false -> Prim2SF x <> S754_nan.
Proof.
  unfold is_nan. rewrite eqb_spec. unfold SFeqb. intros H E.
  rewrite E in H. discriminate.
Qed.

Lemma leb_trans (a b c : float) :
  (a <=? b)%float = true -> (b <=? c)%float = true -> (a <=? c)%float = true.
Proof. rewrite !leb_spec. apply SFleb_trans. Qed.

Lemma ltb_leb (a b : float) :
  (a <? b)%float = true -> (a <=? b)%float = true.
Proof. rewrite ltb_spec, leb_spec. apply SFltb_leb. Qed.

Lemma ltb_asym (a b : float) :
  (a <? b)%float = true -> (b <? a)%float = false.
Proof. rewrite !ltb_spec. apply SFltb_asym. Qed.

(** Two doubles that each stand on the right of a true [<=] are comparable. *)
Lemma leb_comparable (l l' x y : float) :
  (l <=? x)%float = true -> (l' <=? y)%float = true ->
  (x <=? y)%float = false -> (y <=? x)%float = true.
Proof.
  rewrite !leb_spec. intros Hx Hy.
  apply SFleb_total; eapply SFleb_not_nan_r; eassumption.
Qed.

(** Neither below nor above, and no NaN in sight: equal as numbers. *)
Lemma not_ltb_leb (a b : float) :
  is_nan a = false -> is_nan b = false ->
  (a <? b)%float = false -> (b <? a)%float = false ->
  (a <=? b)%float = true /\ (b <=? a)%float = true.
Proof.
  intros Ha Hb. apply is_nan_false in Ha, Hb.
  rewrite !ltb_spec, !leb_spec. unfold SFltb, SFleb.
  rewrite (SFcompare_antisym (Prim2SF a) (Prim2SF b)).
  destruct (SFcompare_some _ _ Ha Hb) as [c ->].
  destruct c; simpl; intros; try discriminate; now split.
Qed.


(** ** Splitting an interval *)

Lemma interval_union (l m r x : float) :
  (l <=? m)%float = true -> (m <=? r)%float = true ->
  (l <=? x)%float && (x <=? r)%float =
  ((l <=? x)%float && (x <=? m)%float)
  || ((m <=? x)%float && (x <=? r)%float).
Proof.
  intros Hlm Hmr.
  destruct (l <=? x)%float eqn:A, (x <=? r)%float eqn:B,
    (x <=? m)%float eqn:C, (m <=? x)%float eqn:D; try reflexivity; exfalso.
  - pose proof (leb_comparable l l x m A Hlm C). congruence.
  - pose proof (leb_trans x m r C Hmr). congruence.
  - pose proof (leb_trans x m r C Hmr). congruence.
  - pose proof (leb_trans l m x Hlm D). congruence.
  - pose proof (leb_trans l m x Hlm D). congruence.
Qed.

Lemma interval_interiors (l m r x : float) :
  ((l <? x)%float && (x <? m)%float)
  && ((m <? x)%float && (x <? r)%float) = false.
Proof.
  destruct (x <? m)%float eqn:A.
  - rewrite (ltb_asym x m A). now rewrite andb_true_r, !andb_false_r.
  - now rewrite andb_false_r.
Qed.

Lemma clamp_range (p : float) :
  is_nan p = false ->
  (0 <=? Math_max 0 (Math_min 100 p))%float = true
  /\ (Math_max 0 (Math_min 100 p) <=? 100)%float = true.
Proof.
  intros Hp.
  assert (Hm : Math_min 100 p = 100%float
               \/ (Math_min 100 p = p /\ (p <=? 100)%float = true)).
  { unfold Math_min. change (is_nan 100) with false. rewrite Hp. cbn [orb].
    destruct (100 <? p)%float eqn:A; [now left|].
    destruct (p <? 100)%float eqn:B.
    - right. split; [reflexivity | now apply ltb_leb].
    - change (get_sign 100) with false. right. split; [reflexivity|].
      now apply (not_ltb_leb 100 p). }
  destruct Hm as [-> | [-> Hle]]; [now split|].
  unfold Math_max. change (is_nan 0) with false. rewrite Hp. cbn [orb].
  destruct (0 <? p)%float eqn:C.
  - split; [now apply ltb_leb | exact Hle].
  - change (get_sign 0) with false. destruct (p <? 0)%float; now split.
Qed.

Lemma split_covers (box : BoundingBox) (p : number) (d : MosaicDirection) :
  boundaryWithin box p d = true -> splitCovers box p d.
Proof.
  unfold boundaryWithin, splitBoundary, splitCovers, containsPoint.
  destruct d; cbn [split fst snd right bottom left top];
    rewrite andb_true_iff; intros [Hl Hr] x y.
  - rewrite (interval_union _ _ _ x Hl Hr).
    destruct (left box <=? x)%float, (top box <=? y)%float,
      (y <=? bottom box)%float; rewrite ?andb_false_r; cbn [andb orb];
      rewrite ?andb_true_r, ?andb_false_r, ?orb_false_r; reflexivity.
  - rewrite <- (andb_assoc _ (top box <=? y)%float).
    rewrite (interval_union _ _ _ y Hl Hr).
    destruct (left box <=? x)%float, (x <=? right box)%float;
      cbn [andb orb]; reflexivity.
Qed.

Lemma split_interiors_disjoint (box : BoundingBox) (p : number)
    (d : MosaicDirection) : splitInteriorsDisjoint box p d.
Proof.
  unfold splitInteriorsDisjoint, interiorContains. intros x y.
  destruct d; cbn [split fst snd right bottom left top].
  - set (m := (left box + getWidth box * _ / 100)%float).
    pose proof (interval_interiors (left box) m (right box) x) as H.
    destruct (left box <? x)%float, (x <? m)%float, (m <? x)%float,
      (x <? right box)%float, (top box <? y)%float, (y <? bottom box)%float;
      cbn [andb] in *; congruence.
  - set (m := (top box + getHeight box * _ / 100)%float).
    pose proof (interval_interiors (top box) m (bottom box) y) as H.
    destruct (top box <? y)%float, (y <? m)%float, (m <? y)%float,
      (y <? bottom box)%float, (left box <? x)%float, (x <? right box)%float;
      cbn [andb] in *; congruence.
Qed.

Lemma siblings_not_above (S D : MosaicPath) :
  siblingPaths S D -> ~ destinationAboveSource S D.
Proof.
  intros (Q & b & -> & ->) (R & HR & E).
  apply (f_equal (@length _)) in E. rewrite !length_app in E. simpl in E.
  destruct R; [contradiction | simpl in E; lia].
Qed.

Lemma siblings_not_off (S D : MosaicPath) :
  siblingPaths S D -> ~ sourceParentOffDestination S D.
Proof.
  intros (Q & b & -> & ->) [_ H]. rewrite removelast_snoc in H.
  now destruct (H [getOtherBranch b]).
Qed.

(** * The claims *)

(** C1. On [scenarioB], dragging "a" (path [first]) to the LEFT of "b" (path
    [second; first]): both paths resolve and differ, the batch is produced
    and applied, and the result has the leaves "b" and "c" only. The leaf
    "a" is lost, the leaves are no permutation of the original ones, and no
    node of the result joins "a" with "b". *)
Theorem scenarioB_drag_breaks_invariant :
  getNodeAtPath scenarioB [first] = Some (Leaf "a"%string)
  /\ getNodeAtPath scenarioB [second; first] = Some (Leaf "b"%string)
  /\ exists updates result,
       createDragToUpdates scenarioB [first] [second; first] LEFT = Ok updates
       /\ updateTree (Some scenarioB) updates = Some result
       /\ getLeaves (Some scenarioB) = ["a"%string; "b"%string; "c"%string]
       /\ getLeaves (Some result) = ["b"%string; "c"%string]
       /\ ~ Permutation (getLeaves (Some result)) (getLeaves (Some scenarioB))
       /\ (forall loc,
             getNodeAtPath result loc
             <> Some (expectedJoint LEFT (Leaf "a"%string) (Leaf "b"%string))).
Proof.
  split; [reflexivity|]. split; [reflexivity|].
  eexists. eexists. split; [reflexivity|]. split; [reflexivity|].
  split; [reflexivity|]. split; [reflexivity|]. split.
  - intros H. apply Permutation_length in H. discriminate.
  - intros loc. destruct loc as [|[] [|c r]]; simpl; discriminate.
Qed.

(** X24. Where the relocation works. When the destination path is a strict
    prefix of the source path (a), or source and destination are the two
    children of one split (b), or the source has a parent and the
    destination lies neither at nor below that parent (c),
    [createDragToUpdates] returns a batch, applying the batch with
    [updateTree] gives a tree whose leaves are a permutation of the original
    leaves, and the result holds, at [loc], a new 50/50 split with the source
    subtree on the requested side. In case (a) [loc] is the destination path
    and the other child is the destination subtree with the source removed
    from it; in case (b) [loc] is the shared parent and the other child is
    the original destination subtree; in case (c), when the destination is
    not also an ancestor of the source, [loc] is the destination path and
    the other child is the original destination subtree. *)
Theorem drag_relocates_source (T : Type) (root src dst : MosaicNode T)
    (S D : MosaicPath) (side : MosaicDropTargetPosition) :
  getNodeAtPath root S = Some src ->
  getNodeAtPath root D = Some dst ->
  destinationAboveSource S D \/ siblingPaths S D
    \/ sourceParentOffDestination S D ->
  exists updates result loc dst',
    createDragToUpdates root S D side = Ok updates
    /\ updateTree (Some root) updates = Some result
    /\ Permutation (getLeaves (Some result)) (getLeaves (Some root))
    /\ getNodeAtPath result loc = Some (expectedJoint side src dst')
    /\ (destinationAboveSource S D ->
        loc = D /\
        exists removal,
          createRemoveUpdate (Some dst) (skipn (length D) S) = Ok removal
          /\ updateTree (Some dst) [removal] = Some dst')
    /\ (siblingPaths S D -> loc = removelast S /\ dst' = dst)
    /\ (sourceParentOffDestination S D -> ~ destinationAboveSource S D ->
        loc = D /\ dst' = dst).
Proof.
  intros HS HD Hcase.
  destruct (isDestinationParentOfSource S D) eqn:HA.
  - apply isDestinationParentOfSource_spec in HA.
    assert (Habove := HA). destruct HA as (R & HR & ->).
    destruct (relocate_above root src dst D R side HS HD HR)
      as (result & dst' & removal & (updates & E1 & E2 & E3 & E4) & Hr & Hu).
    exists updates, result, D, dst'.
    refine (conj E1 (conj E2 (conj E3 (conj E4 (conj _ (conj _ _)))))).
    + intros _. split; [reflexivity|]. exists removal.
      rewrite skipn_app, skipn_all, Nat.sub_diag. simpl. now split.
    + intros Hs. now destruct (siblings_not_above _ _ Hs).
    + intros _ Hn. contradiction.
  - assert (Hna : ~ destinationAboveSource S D).
    { intros H. apply isDestinationParentOfSource_spec in H. congruence. }
    destruct Hcase as [H | [H | H]]; [contradiction | |].
    + assert (Hsib := H). destruct H as (Q & b & -> & ->).
      destruct (relocate_siblings root src dst Q b side HS HD)
        as (result & updates & E1 & E2 & E3 & E4).
      exists updates, result, Q, dst.
      refine (conj E1 (conj E2 (conj E3 (conj E4 (conj _ (conj _ _)))))).
      * intros Ha. contradiction.
      * intros _. now rewrite removelast_snoc.
      * intros Ho. now destruct (siblings_not_off _ _ Hsib).
    + assert (Hoff := H). destruct H as [Hne Hoff'].
      destruct (path_snoc S Hne) as (Q & b & ->).
      rewrite removelast_snoc in Hoff'.
      destruct (relocate_off root src dst Q D b side HS HD Hoff' HA)
        as (result & updates & E1 & E2 & E3 & E4).
      exists updates, result, D, dst.
      refine (conj E1 (conj E2 (conj E3 (conj E4 (conj _ (conj _ _)))))).
      * intros Ha. contradiction.
      * intros Hs. now destruct (siblings_not_off _ _ Hs).
      * intros _ _. now split.
Qed.

(** X24, an instance: dragging "a" out of the first split of [leftHeavy] to
    the left of "c". *)
Lemma drag_relocates_source_witness :
  exists updates result loc dst',
    createDragToUpdates leftHeavy [first; first] [second] LEFT = Ok updates
    /\ updateTree (Some leftHeavy) updates = Some result
    /\ Permutation (getLeaves (Some result)) (getLeaves (Some leftHeavy))
    /\ getNodeAtPath result loc
       = Some (expectedJoint LEFT (Leaf "a"%string) dst')
    /\ (destinationAboveSource [first; first] [second] ->
        loc = [second] /\
        exists removal,
          createRemoveUpdate (Some (Leaf "c"%string))
            (skipn (length [second]) [first; first]) = Ok removal
          /\ updateTree (Some (Leaf "c"%string)) [removal] = Some dst')
    /\ (siblingPaths [first; first] [second] ->
        loc = removelast [first; first] /\ dst' = Leaf "c"%string)
    /\ (sourceParentOffDestination [first; first] [second] ->
        ~ destinationAboveSource [first; first] [second] ->
        loc = [second] /\ dst' = Leaf "c"%string).
Proof.
  apply (drag_relocates_source string leftHeavy (Leaf "a"%string)
           (Leaf "c"%string) [first; first] [second] LEFT).
  - reflexivity.
  - reflexivity.
  - right. right. split.
    + discriminate.
    + intros R. simpl. discriminate.
Defined.

(** Where the destination is an ancestor of the source, the joint is made
    with what is left of the destination: dragging "a" onto the root of
    [scenarioA] leaves no node that joins "a" with the original root. *)
Lemma drag_onto_ancestor_counterexample :
  ~ dragInvariant scenarioA [first] [] LEFT.
Proof.
  intros H.
  destruct (H (Leaf "a"%string) scenarioA eq_refl eq_refl ltac:(discriminate))
    as (updates & result & E1 & E2 & _ & loc & E4).
  vm_compute in E1. injection E1 as <-.
  vm_compute in E2. injection E2 as <-.
  destruct loc as [|[] [|c r]]; simpl in E4; discriminate.
Qed.

(** C2: on [scenarioB], dragging "a" (path [first]) to the LEFT of "b"
    (path [second; first]) produces a batch whose second update still
    addresses [second; first]; after the removal has collapsed the root that
    path runs into the leaf "c", so the result is the column of "b" and "c"
    and "a" is gone, not the tree the scenario expects. *)
Theorem scenarioB_drag_loses_source :
  createDragToUpdates scenarioB [first] [second; first] LEFT
  = Ok [mkUpdate []
          (SpecSet (Parent column (Leaf "b"%string) (Leaf "c"%string)
                      (Some 50%float)));
        mkUpdate [second; first]
          (SpecSet (Parent row (Leaf "a"%string) (Leaf "b"%string)
                      (Some 50%float)))]
  /\ updateTree (Some scenarioB)
       [mkUpdate []
          (SpecSet (Parent column (Leaf "b"%string) (Leaf "c"%string)
                      (Some 50%float)));
        mkUpdate [second; first]
          (SpecSet (Parent row (Leaf "a"%string) (Leaf "b"%string)
                      (Some 50%float)))]
     = Some (Parent column (Leaf "b"%string) (Leaf "c"%string) (Some 50%float))
  /\ Parent column (Leaf "b"%string) (Leaf "c"%string) (Some 50%float)
     <> Parent column
          (Parent row (Leaf "a"%string) (Leaf "b"%string) (Some 50%float))
          (Leaf "c"%string) (Some 50%float).
Proof. repeat split. discriminate. Qed.


(** With a source parent path that is not empty, a strict prefix of the
    destination path, and followed by the same branch in both paths, the
    batch is the removal of the source followed by a [$set] of the new joint
    at the destination path with that one segment deleted. *)
Theorem drag_rebases_below_source (T : Type) (root : MosaicNode T)
    (S D : MosaicPath) (side : MosaicDropTargetPosition) :
  removelast S <> [] -> rebasedBatch root S D side.
Proof.
  intros HQ src dst HS HD Hne (r & Hr & ED) Hnth.
  assert (HSne : S <> []) by (intros ->; now apply HQ).
  destruct (path_snoc S HSne) as (Q & b & ->).
  rewrite removelast_snoc in *. subst D.
  destruct r as [|c rest]; [contradiction|].
  rewrite !nth_error_app2, Nat.sub_diag in Hnth by lia.
  simpl in Hnth. injection Hnth as ->.
  assert (Hrest : rest <> []) by (intros ->; now apply Hne).
  destruct (getNodeAtPath_snoc root src Q b HS) as (d & f & s & pc & HP & ->).
  exists (mkUpdate Q (SpecSet (child (getOtherBranch b) f s))).
  split; [apply (createRemoveUpdate_snoc root Q b d f s pc HP)|].
  assert (HA : isDestinationParentOfSource (Q ++ [b]) (Q ++ b :: rest) = false).
  { unfold isDestinationParentOfSource.
    replace (length (Q ++ b :: rest) <? length (Q ++ [b])) with false;
      [reflexivity|].
    symmetry. apply Nat.ltb_ge. rewrite !length_app. simpl. lia. }
  rewrite (drag_standard root dst Q _ b side d f s pc HP HD Hne HA).
  rewrite (adjusted_below_source Q rest b HQ Hrest), jointNode_expected.
  rewrite skipn_app, skipn_all2, Nat.add_comm by lia.
  replace (1 + length Q - length Q) with 1 by lia. reflexivity.
Qed.

(** An instance: in [leftDeep] the split at [first; first] is dragged to the
    left of its own first leaf, at [first; first; first]; the joint is set at
    [first; first]. *)
Lemma drag_rebases_below_source_witness :
  exists removal,
    createRemoveUpdate (Some leftDeep) [first; first] = Ok removal
    /\ createDragToUpdates leftDeep [first; first] [first; first; first] LEFT =
       Ok [removal;
           mkUpdate [first; first]
             (SpecSet
                (expectedJoint LEFT
                   (Parent column (Leaf "a"%string) (Leaf "b"%string)
                      (Some 50%float))
                   (Leaf "a"%string)))].
Proof.
  apply (drag_rebases_below_source string leftDeep [first; first]
           [first; first; first] LEFT).
  - simpl. discriminate.
  - reflexivity.
  - reflexivity.
  - discriminate.
  - exists [first; first]. split; [discriminate | reflexivity].
  - reflexivity.
Defined.

(** When the source is a child of the root, the guard
    [sourceParentPath.length > 0] keeps the destination path as it is. *)
Lemma drag_below_root_child_counterexample :
  ~ rebasedBatch leftHeavy [first] [first; first] LEFT.
Proof.
  intros H.
  destruct (H (Parent column (Leaf "a"%string) (Leaf "b"%string) (Some 50%float))
              (Leaf "a"%string) eq_refl eq_refl ltac:(discriminate)
              ltac:(exists [first; first]; split; [discriminate | reflexivity])
              eq_refl)
    as (removal & E1 & E2).
  vm_compute in E1. injection E1 as <-.
  vm_compute in E2. discriminate.
Qed.




(** C6. [createRemoveUpdate] throws the root-removal error on the empty
    path; when the parent path resolves to a split it returns the [$set] of
    the sibling at the parent path, and applying that update puts the sibling
    at the parent's position and keeps exactly the leaves outside the removed
    subtree; when the parent path does not resolve, or resolves to a leaf, it
    throws. On [scenarioA], removing [first] leaves the leaf "b". *)
Theorem remove_collapses_split :
  (forall (T : Type),
    (forall root : option (MosaicNode T),
       createRemoveUpdate root [] = Throw CannotRemoveRoot)
    /\ (forall (root : MosaicNode T) Q b d f s pc,
          getNodeAtPath root Q = Some (Parent d f s pc) ->
          createRemoveUpdate (Some root) (Q ++ [b])
          = Ok (mkUpdate Q (SpecSet (child (getOtherBranch b) f s)))
          /\ exists result,
               updateTree (Some root)
                 [mkUpdate Q (SpecSet (child (getOtherBranch b) f s))]
               = Some result
               /\ getNodeAtPath result Q
                  = Some (child (getOtherBranch b) f s)
               /\ Permutation (getLeaves (Some root))
                    (getLeaves (Some (child b f s))
                       ++ getLeaves (Some result)))
    /\ (forall (root : MosaicNode T) Q b,
          getNodeAtPath root Q = None ->
          createRemoveUpdate (Some root) (Q ++ [b])
          = Throw (NodeNotFound Q))
    /\ (forall (root : MosaicNode T) Q b x,
          getNodeAtPath root Q = Some (Leaf x) ->
          createRemoveUpdate (Some root) (Q ++ [b]) = Throw ParentNotParent))
  /\ (exists update,
        createRemoveUpdate (Some scenarioA) [first] = Ok update
        /\ updateTree (Some scenarioA) [update] = Some (Leaf "b"%string)).
Proof.
  split; [intros T; split; [|split; [|split]]|].
  - intros [root|]; reflexivity.
  - intros root Q b d f s pc H. split.
    + apply (createRemoveUpdate_snoc root Q b d f s pc H).
    + exists (replaceAt root Q (child (getOtherBranch b) f s)).
      split; [|split].
      * unfold updateTree. cbn [fold_left]. now rewrite applyUpdate_set.
      * apply (getNodeAtPath_replaceAt_same root _ _ Q H).
      * apply (nodeLeaves_remove root Q b d f s pc H).
  - intros root Q b H. unfold createRemoveUpdate.
    destruct (Q ++ [b]) eqn:E; [now destruct (snoc_not_nil Q b)|].
    rewrite <- E, removelast_snoc.
    unfold getAndAssertNodeAtPathExists. now rewrite H.
  - intros root Q b x H. unfold createRemoveUpdate.
    destruct (Q ++ [b]) eqn:E; [now destruct (snoc_not_nil Q b)|].
    rewrite <- E, removelast_snoc.
    unfold getAndAssertNodeAtPathExists. now rewrite H.
  - eexists. split; reflexivity.
Qed.

(** C7. The leaves of the balanced tree built from a list are that list, in
    order, for every list and start direction; the empty list gives null and
    a one-element list gives that leaf, unwrapped. *)
Theorem balanced_tree_round_trip (T : Type) (L : list T)
    (startDirection : MosaicDirection) :
  getLeaves (createBalancedTreeFromLeaves L startDirection) = L
  /\ createBalancedTreeFromLeaves (@nil T) startDirection = None
  /\ (forall x : T,
        createBalancedTreeFromLeaves [x] startDirection = Some (Leaf x)).
Proof.
  split; [apply getLeaves_balanced|]. split; [|intros x]; now simp
    createBalancedTreeFromLeaves.
Qed.

(** C8, as amended. For every box, percentage and direction, [split] clamps
    the percentage with [Math.max(0, Math.min(100, p))], which lies in
    [0, 100] unless [p] is NaN (and is NaN then), and returns two boxes:
    for [row] both keep the top and bottom of the box and meet at
    [left + width * percent / 100]; for [column] both keep its left and right
    and meet at [top + height * percent / 100], all in double arithmetic. The
    interiors of the two boxes are always disjoint. Whenever the computed
    boundary lies within the extent of the box along the split axis, the two
    boxes cover exactly the points of the box. *)
Theorem split_boxes_tile (box : BoundingBox) (p : number)
    (d : MosaicDirection) :
  (is_nan p = false ->
     (0 <=? Math_max 0 (Math_min 100 p))%float = true
     /\ (Math_max 0 (Math_min 100 p) <=? 100)%float = true)
  /\ (is_nan p = true -> is_nan (Math_max 0 (Math_min 100 p)) = true)
  /\ split box p d =
     match d with
     | row =>
         let x := (left box + (right box - left box)
                               * Math_max 0 (Math_min 100 p) / 100)%float in
         (createBoundingBox (top box) x (bottom box) (left box),
          createBoundingBox (top box) (right box) (bottom box) x)
     | column =>
         let y := (top box + (bottom box - top box)
                              * Math_max 0 (Math_min 100 p) / 100)%float in
         (createBoundingBox (top box) (right box) y (left box),
          createBoundingBox y (right box) (bottom box) (left box))
     end
  /\ splitInteriorsDisjoint box p d
  /\ (boundaryWithin box p d = true -> splitCovers box p d).
Proof.
  split; [apply clamp_range|]. split.
  { intros Hp. unfold Math_min. rewrite Hp, orb_true_r. reflexivity. }
  split; [now destruct d|].
  split; [apply split_interiors_disjoint | apply split_covers].
Qed.

(** C8, an instance: the full box split in the middle along [row] has its
    boundary within the box, and the two halves cover it. *)
Lemma split_boxes_tile_witness :
  boundaryWithin fullBox 50 row = true /\ splitCovers fullBox 50 row.
Proof.
  split; [reflexivity|].
  apply (proj2 (proj2 (proj2 (proj2 (split_boxes_tile fullBox 50 row))))).
  reflexivity.
Defined.

(** C8, as stated, fails in double arithmetic: [narrowBox] runs from 0.1 to
    0.3 and is split at 100 percent, yet the boundary is computed as
    0.30000000000000004, so the first box holds a point the box does not. *)
Lemma split_overshoots_counterexample :
  (left narrowBox <=? right narrowBox)%float = true
  /\ (top narrowBox <=? bottom narrowBox)%float = true
  /\ ~ splitCovers narrowBox 100 row.
Proof.
  split; [reflexivity|]. split; [reflexivity|]. intros H.
  specialize (H (splitBoundary narrowBox 100 row) 0.5%float).
  vm_compute in H. discriminate.
Qed.

(** C9. [createDragToUpdates] returns the empty batch when the source path
    does not resolve, when the destination path does not resolve, and when
    the two paths are equal; applying the empty batch returns the tree. *)
Theorem drag_noop_batch (T : Type) (root : MosaicNode T)
    (S D : MosaicPath) (side : MosaicDropTargetPosition) :
  getNodeAtPath root S = None \/ getNodeAtPath root D = None \/ S = D ->
  createDragToUpdates root S D side = Ok []
  /\ updateTree (Some root) [] = Some root.
Proof.
  intros H. split; [|reflexivity]. unfold createDragToUpdates.
  destruct (getNodeAtPath root S) as [src|]; [|reflexivity].
  destruct (getNodeAtPath root D) as [dst|]; [|reflexivity].
  destruct H as [H | [H | H]]; try discriminate.
  apply path_eqb_eq in H. now rewrite H.
Qed.

(** C9, instances: a self-drop on [scenarioA], and paths that run past its
    leaves. *)
Lemma drag_noop_batch_witness :
  createDragToUpdates scenarioA [first] [first] TOP = Ok []
  /\ updateTree (Some scenarioA) [] = Some scenarioA.
Proof.
  apply (drag_noop_batch string scenarioA [first] [first] TOP).
  right. right. reflexivity.
Defined.

(** C10. A tree that is not null has [2 * leaves - 1] nodes, an odd number;
    the null tree has no node and no leaf. *)
Theorem countNodes_from_leaves (T : Type) (t : MosaicNode T) :
  countNodes (Some t) = 2 * length (getLeaves (Some t)) - 1
  /\ Nat.odd (countNodes (Some t)) = true
  /\ @countNodes T None = 0
  /\ length (@getLeaves T None) = 0.
Proof.
  pose proof (nodeCount_leaves t) as H.
  pose proof (nodeLeaves_nonempty t) as H1. simpl.
  split; [lia|]. split; [|now split].
  apply Nat.odd_spec. exists (length (nodeLeaves t) - 1). lia.
Qed.

(** * Further properties of the same code *)

(** ** Corners and depth *)

Section CornerFacts.

Context {T : Type}.

Local Abbreviation Node := (MosaicNode T).

Lemma nodeDepth_pos (t : Node) : 1 <= nodeDepth t.
Proof. destruct t; simpl; lia. Qed.

Lemma nodeDepth_child (b : MosaicBranch) (f s : Node) :
  nodeDepth (child b f s) <= Nat.max (nodeDepth f) (nodeDepth s).
Proof. destruct b; simpl; lia. Qed.

Lemma nodeLeaves_child_incl (b : MosaicBranch) (f s : Node) (x : T) :
  In x (nodeLeaves (child b f s)) -> In x (nodeLeaves f ++ nodeLeaves s).
Proof. destruct b; simpl; intros H; apply in_or_app; auto. Qed.

Lemma corner_path_leaf (t : Node) (c : Corner) :
  exists x,
    getNodeAtPath t (getPathToCorner t c) = Some (Leaf x)
    /\ In x (nodeLeaves t)
    /\ length (getPathToCorner t c) + 1 <= nodeDepth t.
Proof.
  induction t as [x|d f IHf s IHs pc].
  - exists x. simpl. auto.
  - simpl. set (b := cornerBranch d c).
    assert (IH : exists x,
               getNodeAtPath (child b f s) (getPathToCorner (child b f s) c)
               = Some (Leaf x)
               /\ In x (nodeLeaves (child b f s))
               /\ length (getPathToCorner (child b f s) c) + 1
                  <= nodeDepth (child b f s))
      by (destruct b; assumption).
    destruct IH as (x & E & Hin & Hlen). exists x.
    split; [exact E|]. split; [now apply (nodeLeaves_child_incl b)|].
    pose proof (nodeDepth_child b f s). lia.
Qed.

Lemma top_left_path (t : Node) :
  Forall (eq first) (getPathToCorner t TOP_LEFT)
  /\ exists x l,
       nodeLeaves t = x :: l
       /\ getNodeAtPath t (getPathToCorner t TOP_LEFT) = Some (Leaf x).
Proof.
  induction t as [x|d f [IHa (x & l & El & Eg)] s _ pc].
  - split; [constructor|]. now exists x, [].
  - assert (Eb : cornerBranch d TOP_LEFT = first) by now destruct d.
    simpl. rewrite Eb. simpl. split; [now constructor|].
    exists x, (l ++ nodeLeaves s). now rewrite El.
Qed.

Lemma bottom_right_path (t : Node) :
  Forall (eq second) (getPathToCorner t BOTTOM_RIGHT)
  /\ exists y l,
       nodeLeaves t = l ++ [y]
       /\ getNodeAtPath t (getPathToCorner t BOTTOM_RIGHT) = Some (Leaf y).
Proof.
  induction t as [x|d f _ s [IHa (y & l & El & Eg)] pc].
  - split; [constructor|]. now exists x, [].
  - assert (Eb : cornerBranch d BOTTOM_RIGHT = second) by now destruct d.
    simpl. rewrite Eb. simpl. split; [now constructor|].
    exists y, (nodeLeaves f ++ l). now rewrite El, app_assoc.
Qed.

Lemma resolving_path_depth (t n : Node) (p : MosaicPath) :
  getNodeAtPath t p = Some n -> length p + nodeDepth n <= nodeDepth t.
Proof.
  revert t. induction p as [|b p IH]; intros t H.
  - simpl in H. injection H as ->. simpl. lia.
  - destruct t as [x|d f s pc]; [discriminate|]. simpl in H.
    apply IH in H. pose proof (nodeDepth_child b f s). simpl. lia.
Qed.

Lemma nodeCount_depth (t : Node) :
  nodeDepth t <= nodeCount t /\ nodeCount t + 1 <= 2 ^ nodeDepth t.
Proof.
  induction t as [x|d f [IHf1 IHf2] s [IHs1 IHs2] pc]; simpl; [lia|].
  pose proof (Nat.pow_le_mono_r 2 (nodeDepth f)
                (Nat.max (nodeDepth f) (nodeDepth s)) ltac:(lia) ltac:(lia)).
  pose proof (Nat.pow_le_mono_r 2 (nodeDepth s)
                (Nat.max (nodeDepth f) (nodeDepth s)) ltac:(lia) ltac:(lia)).
  lia.
Qed.

End CornerFacts.

(** ** Replacement *)

Section ReplaceFacts.

Context {T : Type}.

Local Abbreviation Node := (MosaicNode T).

Lemma setChild_child (b : MosaicBranch) d (f s : Node) pc :
  setChild b d f s pc (child b f s) = Parent d f s pc.
Proof. now destruct b. Qed.

Lemma replaceAt_unresolved (t n : Node) (p : MosaicPath) :
  getNodeAtPath t p = None -> replaceAt t p n = t.
Proof.
  revert t. induction p as [|b p IH]; intros t H; [discriminate|].
  destruct t as [x|d f s pc]; [reflexivity|]. simpl in H.
  cbn [replaceAt]. rewrite (IH _ H). apply setChild_child.
Qed.

Lemma replaceAt_same (t x : Node) (p : MosaicPath) :
  getNodeAtPath t p = Some x -> replaceAt t p x = t.
Proof.
  revert t. induction p as [|b p IH]; intros t H.
  - simpl in H. now injection H as ->.
  - destruct t as [y|d f s pc]; [reflexivity|]. simpl in H.
    cbn [replaceAt]. rewrite (IH _ H). apply setChild_child.
Qed.

Lemma applySpecHere_shape (t : Node) (sp : MosaicUpdateSpec T) :
  nodeLeaves (applySpecHere t sp) = nodeLeaves t
  /\ nodeCount (applySpecHere t sp) = nodeCount t
  /\ nodeDepth (applySpecHere t sp) = nodeDepth t.
Proof.
  revert sp. induction t as [x|d f IHf s IHs pc]; intros sp.
  - destruct sp; simpl; auto.
  - destruct sp as [n|v dir fs ss]; [simpl; auto|].
    cbn [applySpecHere].
    assert (Hf : nodeLeaves (match fs with
                             | Some sf => applySpecHere f sf
                             | None => f
                             end) = nodeLeaves f
                 /\ nodeCount (match fs with
                               | Some sf => applySpecHere f sf
                               | None => f
                               end) = nodeCount f
                 /\ nodeDepth (match fs with
                               | Some sf => applySpecHere f sf
                               | None => f
                               end) = nodeDepth f)
      by (destruct fs; [apply IHf | auto]).
    assert (Hs : nodeLeaves (match ss with
                             | Some sf => applySpecHere s sf
                             | None => s
                             end) = nodeLeaves s
                 /\ nodeCount (match ss with
                               | Some sf => applySpecHere s sf
                               | None => s
                               end) = nodeCount s
                 /\ nodeDepth (match ss with
                               | Some sf => applySpecHere s sf
                               | None => s
                               end) = nodeDepth s)
      by (destruct ss; [apply IHs | auto]).
    destruct Hf as (Hf1 & Hf2 & Hf3), Hs as (Hs1 & Hs2 & Hs3).
    simpl. now rewrite Hf1, Hf2, Hf3, Hs1, Hs2, Hs3.
Qed.

Lemma setChild_shape (b : MosaicBranch) d (f s : Node) pc (v : Node) :
  nodeLeaves v = nodeLeaves (child b f s) ->
  nodeCount v = nodeCount (child b f s) ->
  nodeDepth v = nodeDepth (child b f s) ->
  nodeLeaves (setChild b d f s pc v) = nodeLeaves (Parent d f s pc)
  /\ nodeCount (setChild b d f s pc v) = nodeCount (Parent d f s pc)
  /\ nodeDepth (setChild b d f s pc v) = nodeDepth (Parent d f s pc).
Proof. destruct b; simpl; intros -> -> ->; auto. Qed.

Lemma applyUpdateAtPath_patch_shape (t : Node) (p : MosaicPath)
    v dir (fs ss : option (MosaicUpdateSpec T)) :
  nodeLeaves (applyUpdateAtPath t p (SpecPatch v dir fs ss)) = nodeLeaves t
  /\ nodeCount (applyUpdateAtPath t p (SpecPatch v dir fs ss)) = nodeCount t
  /\ nodeDepth (applyUpdateAtPath t p (SpecPatch v dir fs ss)) = nodeDepth t.
Proof.
  revert t. induction p as [|b p IH]; intros t.
  - apply applySpecHere_shape.
  - destruct t as [x|d f s pc]; [simpl; auto|].
    destruct (IH (child b f s)) as (H1 & H2 & H3).
    cbn [applyUpdateAtPath]. destruct p; now apply setChild_shape.
Qed.

Lemma applyUpdate_patch_shape (t : Node) (u : MosaicUpdate T) :
  isPatch u = true ->
  nodeLeaves (applyUpdate t u) = nodeLeaves t
  /\ nodeCount (applyUpdate t u) = nodeCount t
  /\ nodeDepth (applyUpdate t u) = nodeDepth t.
Proof.
  destruct u as [p [n|v dir fs ss]]; [discriminate|]. intros _.
  unfold applyUpdate. simpl path. simpl spec.
  destruct p; apply applyUpdateAtPath_patch_shape.
Qed.

(** A patch at a path that resolves acts on the node found there. *)
Lemma applyUpdateAtPath_patch_at (t x : Node) (p : MosaicPath)
    v dir (fs ss : option (MosaicUpdateSpec T)) :
  getNodeAtPath t p = Some x ->
  applyUpdateAtPath t p (SpecPatch v dir fs ss)
  = replaceAt t p (applySpecHere x (SpecPatch v dir fs ss)).
Proof.
  revert t. induction p as [|b p IH]; intros t H.
  - simpl in H. now injection H as ->.
  - destruct t as [y|d f s pc]; [discriminate|]. simpl in H.
    cbn [applyUpdateAtPath replaceAt]. rewrite <- (IH _ H). now destruct p.
Qed.

Lemma applyUpdateAtPath_patch_unresolved (t : Node) (p : MosaicPath)
    v dir (fs ss : option (MosaicUpdateSpec T)) :
  getNodeAtPath t p = None ->
  applyUpdateAtPath t p (SpecPatch v dir fs ss) = t.
Proof.
  revert t. induction p as [|b p IH]; intros t H; [discriminate|].
  destruct t as [y|d f s pc]; [reflexivity|]. simpl in H.
  cbn [applyUpdateAtPath]. rewrite (IH _ H).
  destruct p; apply setChild_child.
Qed.

End ReplaceFacts.

(** X1. The path [getPathToCorner] returns always resolves, and it resolves
    to a leaf of the tree; it is shorter than the depth of the tree. *)
Theorem getPathToCorner_reaches_leaf (T : Type) (t : MosaicNode T)
    (corner : Corner) :
  exists x,
    getNodeAtPath t (getPathToCorner t corner) = Some (Leaf x)
    /\ In x (getLeaves (Some t))
    /\ length (getPathToCorner t corner) < getTreeDepth (Some t).
Proof.
  destruct (corner_path_leaf t corner) as (x & E & Hin & Hlen).
  exists x. simpl. repeat split; [exact E | exact Hin | lia].
Qed.

(** X2. The path to the top-left corner takes [first] at every split and ends
    at the first leaf of [getLeaves]; the path to the bottom-right corner
    takes [second] at every split and ends at the last leaf. *)
Theorem getPathToCorner_extremes (T : Type) (t : MosaicNode T) :
  (Forall (eq first) (getPathToCorner t TOP_LEFT)
   /\ exists x l,
        getLeaves (Some t) = x :: l
        /\ getNodeAtPath t (getPathToCorner t TOP_LEFT) = Some (Leaf x))
  /\ (Forall (eq second) (getPathToCorner t BOTTOM_RIGHT)
      /\ exists y l,
           getLeaves (Some t) = l ++ [y]
           /\ getNodeAtPath t (getPathToCorner t BOTTOM_RIGHT)
              = Some (Leaf y)).
Proof. split; [apply top_left_path | apply bottom_right_path]. Qed.

(** X3. The depth of a tree is at most its node count, a tree of depth [h]
    has at most [2^h - 1] nodes, and a path that resolves to a node is
    shorter than the depth by at least the depth of that node. *)
Theorem getTreeDepth_bounds (T : Type) (t : MosaicNode T) :
  getTreeDepth (Some t) <= countNodes (Some t)
  /\ countNodes (Some t) + 1 <= 2 ^ getTreeDepth (Some t)
  /\ (forall p n,
        getNodeAtPath t p = Some n ->
        length p + getTreeDepth (Some n) <= getTreeDepth (Some t)).
Proof.
  destruct (nodeCount_depth t) as [H1 H2]. simpl.
  repeat split; [exact H1 | exact H2 |]. intros p n. apply resolving_path_depth.
Qed.

(** X4. A batch made of patches only (no [$set] at the top of a spec) never
    adds, removes or reorders a leaf, and changes neither the node count nor
    the depth; a [$set] nested inside a patch is ignored. *)
Theorem patches_keep_shape (T : Type) (root : option (MosaicNode T))
    (updates : list (MosaicUpdate T)) :
  forallb isPatch updates = true ->
  getLeaves (updateTree root updates) = getLeaves root
  /\ countNodes (updateTree root updates) = countNodes root
  /\ getTreeDepth (updateTree root updates) = getTreeDepth root.
Proof.
  destruct root as [r|]; [|now auto]. simpl.
  revert r. induction updates as [|u us IH]; intros r H; [now auto|].
  simpl in H. apply andb_true_iff in H. destruct H as [Hu Hus].
  destruct (applyUpdate_patch_shape r u Hu) as (H1 & H2 & H3).
  destruct (IH (applyUpdate r u) Hus) as (I1 & I2 & I3).
  cbn [fold_left]. now rewrite I1, I2, I3.
Qed.

(** X4, an instance: a patch that carries a [$set] for [first], together with
    a resize of the root, leaves [scenarioB] with the same leaves. *)
Lemma patches_keep_shape_witness :
  getLeaves
    (updateTree (Some scenarioB)
       [mkUpdate []
          (SpecPatch None (Some column)
             (Some (SpecSet (Leaf "z"%string))) None);
        splitPercentageUpdate [] 30%float])
  = getLeaves (Some scenarioB)
  /\ countNodes
       (updateTree (Some scenarioB)
          [mkUpdate []
             (SpecPatch None (Some column)
                (Some (SpecSet (Leaf "z"%string))) None);
           splitPercentageUpdate [] 30%float])
     = countNodes (Some scenarioB)
  /\ getTreeDepth
       (updateTree (Some scenarioB)
          [mkUpdate []
             (SpecPatch None (Some column)
                (Some (SpecSet (Leaf "z"%string))) None);
           splitPercentageUpdate [] 30%float])
     = getTreeDepth (Some scenarioB).
Proof.
  apply (patches_keep_shape string (Some scenarioB)). reflexivity.
Defined.

(** X5. The update a dragged split bar sends sets the percentage of the
    split at its path and nothing else: it acts as the replacement of that
    split by the same split with the new percentage. At a path that resolves
    to a leaf, or does not resolve, the tree stays as it is. *)
Theorem splitPercentageUpdate_effect (T : Type) (root : MosaicNode T)
    (p : MosaicPath) (v : number) :
  (forall d f s pc,
     getNodeAtPath root p = Some (Parent d f s pc) ->
     updateTree (Some root) [splitPercentageUpdate p v]
     = updateTree (Some root)
         [createReplaceUpdate p (Parent d f s (Some v))]
     /\ exists t',
          updateTree (Some root) [splitPercentageUpdate p v] = Some t'
          /\ getNodeAtPath t' p = Some (Parent d f s (Some v)))
  /\ (forall x,
        getNodeAtPath root p = Some (Leaf x) ->
        updateTree (Some root) [splitPercentageUpdate p v] = Some root)
  /\ (getNodeAtPath root p = None ->
      updateTree (Some root) [splitPercentageUpdate p v] = Some root).
Proof.
  assert (E : forall s : MosaicUpdateSpec T,
            s = SpecPatch (Some v) None None None ->
            applyUpdate root (mkUpdate p s) = applyUpdateAtPath root p s).
  { intros s ->. unfold applyUpdate. simpl. now destruct p. }
  unfold updateTree, splitPercentageUpdate, createReplaceUpdate.
  cbn [fold_left]. rewrite (E _ eq_refl). split; [|split].
  - intros d f s pc H.
    rewrite (applyUpdateAtPath_patch_at root _ p _ _ _ _ H), applyUpdate_set.
    simpl applySpecHere. split; [reflexivity|]. eexists. split; [reflexivity|].
    apply (getNodeAtPath_replaceAt_same root _ _ p H).
  - intros x H. rewrite (applyUpdateAtPath_patch_at root _ p _ _ _ _ H).
    simpl applySpecHere. now rewrite (replaceAt_same root _ p H).
  - intros H. now rewrite (applyUpdateAtPath_patch_unresolved root p _ _ _ _ H).
Qed.

(** X6. The [expand] action returns early on the null tree and lets
    ['Cannot expand root node'] escape for the empty path. For any other
    path it hands over a tree with the same leaves; when the parent of the
    path is a split, that split keeps its direction and children and gets
    the percentage (default 70) if the path ends in [first], and 100 minus
    the percentage if it ends in [second]. *)
Theorem expand_outcome (T : Type) :
  (forall path percentage,
     mosaicActions.expand (@None (MosaicNode T)) path percentage = Unchanged)
  /\ (forall (root : MosaicNode T) percentage,
        mosaicActions.expand (Some root) [] percentage
        = Raised CannotExpandRoot)
  /\ (forall (root : MosaicNode T) Q b percentage,
        exists t',
          mosaicActions.expand (Some root) (Q ++ [b]) percentage
          = Changed (Some t')
          /\ getLeaves (Some t') = getLeaves (Some root)
          /\ (forall d f s pc,
                getNodeAtPath root Q = Some (Parent d f s pc) ->
                getNodeAtPath t' Q
                = Some (Parent d f s
                          (Some
                             (let p := match percentage with
                                       | Some p => p
                                       | None => 70%float
                                       end in
                              match b with
                              | first => p
                              | second => (100 - p)%float
                              end))))).
Proof.
  split; [reflexivity|]. split; [reflexivity|].
  intros root Q b percentage. unfold mosaicActions.expand, createExpandUpdate.
  destruct (Q ++ [b]) eqn:E; [now destruct (snoc_not_nil Q b)|].
  rewrite <- E, removelast_snoc, last_snoc.
  set (p := match percentage with Some p => p | None => 70%float end).
  set (v := match b with first => p | second => (100 - p)%float end).
  exists (applyUpdate root (mkUpdate Q (SpecPatch (Some v) None None None))).
  split; [reflexivity|]. split.
  - apply (applyUpdate_patch_shape root). reflexivity.
  - intros d f s pc H.
    replace (applyUpdate root (mkUpdate Q (SpecPatch (Some v) None None None)))
      with (applyUpdateAtPath root Q (SpecPatch (Some v) None None None))
      by (unfold applyUpdate; simpl; now destruct Q).
    rewrite (applyUpdateAtPath_patch_at root _ Q _ _ _ _ H).
    apply (getNodeAtPath_replaceAt_same root _ _ Q H).
Qed.

(** X7. Applying the same [$set] update twice in a row gives the same tree
    as applying it once, on every tree, the null tree included. *)
Theorem set_update_idempotent (T : Type) (root : option (MosaicNode T))
    (p : MosaicPath) (n : MosaicNode T) :
  updateTree root [createReplaceUpdate p n; createReplaceUpdate p n]
  = updateTree root [createReplaceUpdate p n].
Proof.
  destruct root as [r|]; [|reflexivity].
  unfold updateTree, createReplaceUpdate. cbn [fold_left].
  now rewrite !applyUpdate_set, replaceAt_twice.
Qed.

(** X8. Replacing at a path and looking up below that path: when the path
    resolves, the tree after [createReplaceUpdate] holds the new node there,
    so a lookup at the path followed by [q] is the lookup of [q] in the new
    node; replacing a node by itself changes nothing; and when the path does
    not resolve, the update is dropped and the tree stays as it is. *)
Theorem replace_then_lookup (T : Type) (root n : MosaicNode T)
    (p : MosaicPath) :
  (forall x,
     getNodeAtPath root p = Some x ->
     (exists t',
        updateTree (Some root) [createReplaceUpdate p n] = Some t'
        /\ forall q, getNodeAtPath t' (p ++ q) = getNodeAtPath n q)
     /\ updateTree (Some root) [createReplaceUpdate p x] = Some root)
  /\ (getNodeAtPath root p = None ->
      updateTree (Some root) [createReplaceUpdate p n] = Some root).
Proof.
  unfold updateTree, createReplaceUpdate. cbn [fold_left].
  rewrite !applyUpdate_set. split.
  - intros x H. split.
    + eexists. split; [reflexivity|]. intros q.
      apply (getNodeAtPath_replaceAt root x n p q H).
    + now rewrite applyUpdate_set, (replaceAt_same root x p H).
  - intros H. now rewrite (replaceAt_unresolved root n p H).
Qed.

(** X9. [createSplitUpdate] at a path that resolves discards the subtree
    found there and puts the new leaf in its place twice: the leaves before
    and after that subtree stay, in order, around two copies of the new
    leaf. *)
Theorem createSplitUpdate_leaves (T : Type) (root x : MosaicNode T)
    (p : MosaicPath) (newNode : T) (direction : option MosaicDirection) :
  getNodeAtPath root p = Some x ->
  exists l1 l2 t',
    getLeaves (Some root) = l1 ++ getLeaves (Some x) ++ l2
    /\ updateTree (Some root) [createSplitUpdate p newNode direction]
       = Some t'
    /\ getLeaves (Some t') = l1 ++ [newNode; newNode] ++ l2
    /\ getNodeAtPath t' p
       = Some (Parent (match direction with Some d => d | None => row end)
                 (Leaf newNode) (Leaf newNode) (Some 50%float)).
Proof.
  intros H. destruct (nodeLeaves_replaceAt root x p H) as (l1 & l2 & E & R).
  exists l1, l2. eexists. split; [exact E|].
  unfold updateTree, createSplitUpdate. cbn [fold_left].
  rewrite applyUpdate_set. split; [reflexivity|]. split.
  - simpl. now rewrite R.
  - apply (getNodeAtPath_replaceAt_same root x _ p H).
Qed.

(** X9, an instance: splitting the column of [scenarioB] with a new leaf
    "n" drops "b" and "c". *)
Lemma createSplitUpdate_leaves_witness :
  exists l1 l2 t',
    getLeaves (Some scenarioB)
    = l1 ++ getLeaves
              (Some (Parent column (Leaf "b"%string) (Leaf "c"%string)
                       (Some 50%float))) ++ l2
    /\ updateTree (Some scenarioB)
         [createSplitUpdate [second] "n"%string None] = Some t'
    /\ getLeaves (Some t') = l1 ++ ["n"%string; "n"%string] ++ l2
    /\ getNodeAtPath t' [second]
       = Some (Parent row (Leaf "n"%string) (Leaf "n"%string) (Some 50%float)).
Proof.
  apply (createSplitUpdate_leaves string scenarioB _ [second] "n"%string None).
  reflexivity.
Defined.

Lemma createRemoveUpdate_unresolved (T : Type) (root : MosaicNode T)
    (Q : MosaicPath) (b : MosaicBranch) :
  getNodeAtPath root (Q ++ [b]) = None ->
  exists e, createRemoveUpdate (Some root) (Q ++ [b]) = Throw e.
Proof.
  intros H. unfold createRemoveUpdate.
  destruct (Q ++ [b]) eqn:E; [now destruct (snoc_not_nil Q b)|].
  rewrite <- E, removelast_snoc. rewrite <- E, getNodeAtPath_app in H.
  unfold getAndAssertNodeAtPathExists.
  destruct (getNodeAtPath root Q) as [[x|d f s pc]|]; eauto.
  simpl in H. now destruct b.
Qed.

(** X10. The [remove] action returns early on the null tree. On any other
    tree it hands over null, emptying the layout, when the path is empty
    or does not resolve; when a non-empty path resolves, it hands over a tree
    whose leaves are the old leaves without those of the removed subtree,
    and which has lost the removed subtree's nodes and one split. *)
Theorem remove_outcome (T : Type) :
  (forall path, mosaicActions.remove (@None (MosaicNode T)) path = Unchanged)
  /\ (forall root : MosaicNode T,
        mosaicActions.remove (Some root) [] = Changed None)
  /\ (forall (root : MosaicNode T) path,
        getNodeAtPath root path = None ->
        mosaicActions.remove (Some root) path = Changed None)
  /\ (forall (root x : MosaicNode T) path,
        path <> [] ->
        getNodeAtPath root path = Some x ->
        exists t',
          mosaicActions.remove (Some root) path = Changed (Some t')
          /\ Permutation (getLeaves (Some root))
               (getLeaves (Some x) ++ getLeaves (Some t'))
          /\ countNodes (Some t') + countNodes (Some x) + 1
             = countNodes (Some root)).
Proof.
  split; [reflexivity|]. split; [reflexivity|]. split.
  - intros root path H. destruct path as [|c r] eqn:E; [discriminate|].
    assert (Hne : path <> []) by (rewrite E; discriminate).
    rewrite <- E in *. destruct (path_snoc path Hne) as (Q & b & ->).
    destruct (createRemoveUpdate_unresolved T root Q b H) as [e He].
    unfold mosaicActions.remove. now rewrite He.
  - intros root x path Hne H. destruct (path_snoc path Hne) as (Q & b & ->).
    destruct (getNodeAtPath_snoc root x Q b H) as (d & f & s & pc & HP & ->).
    unfold mosaicActions.remove.
    rewrite (createRemoveUpdate_snoc root Q b d f s pc HP).
    unfold updateTree. cbn [fold_left]. rewrite applyUpdate_set.
    eexists. split; [reflexivity|].
    pose proof (nodeLeaves_remove root Q b d f s pc HP) as HPerm.
    split; [exact HPerm|]. simpl.
    apply Permutation_length in HPerm. rewrite length_app in HPerm.
    pose proof (nodeCount_leaves root).
    pose proof (nodeCount_leaves (child b f s)).
    pose proof (nodeCount_leaves
                  (replaceAt root Q (child (getOtherBranch b) f s))).
    lia.
Qed.

(** X11. A batch that is the concatenation of two batches does what the two
    batches do one after the other, on every tree, the null tree included. *)
Theorem updateTree_concatenation (T : Type) (root : option (MosaicNode T))
    (us1 us2 : list (MosaicUpdate T)) :
  updateTree root (us1 ++ us2) = updateTree (updateTree root us1) us2.
Proof.
  destruct root as [r|]; [apply updateTree_app | reflexivity].
Qed.

(** ** More on drag relocation *)

Lemma adjusted_below_sibling (Q rest : MosaicPath) (b : MosaicBranch) :
  rest <> [] ->
  adjustedDestinationPath (Q ++ [b]) (Q ++ getOtherBranch b :: rest)
  = Q ++ getOtherBranch b :: rest.
Proof.
  intros Hrest. unfold adjustedDestinationPath. rewrite removelast_snoc.
  assert (Hlen : length (removelast (Q ++ getOtherBranch b :: rest))
                 = length Q + length rest).
  { assert (Hne : Q ++ getOtherBranch b :: rest <> [])
      by (destruct Q; discriminate).
    pose proof (f_equal (@length _) (app_removelast_last first Hne)) as E.
    rewrite !length_app in E. simpl in E. lia. }
  rewrite Hlen.
  assert (0 < length rest) by (destruct rest; [contradiction | simpl; lia]).
  replace (length Q =? length Q + length rest) with false
    by (symmetry; apply Nat.eqb_neq; lia).
  rewrite andb_false_l.
  destruct ((0 <? length Q)
            && (length Q <? length (Q ++ getOtherBranch b :: rest))
            && everyMatches Q (Q ++ getOtherBranch b :: rest));
    [|reflexivity].
  rewrite !nth_error_app2, Nat.sub_diag by lia. cbn [nth_error optBranch_eqb].
  now destruct b.
Qed.

Section DragMore.

Context {T : Type}.

Local Abbreviation Node := (MosaicNode T).

Lemma drag_never_throws (root : Node) (S D : MosaicPath)
    (side : MosaicDropTargetPosition) :
  exists us, createDragToUpdates root S D side = Ok us /\ length us <= 2.
Proof.
  unfold createDragToUpdates.
  destruct (getNodeAtPath root S) as [src|] eqn:HS; [|exists []; simpl; auto].
  destruct (getNodeAtPath root D) as [dst|] eqn:HD; [|exists []; simpl; auto].
  destruct (path_eqb S D) eqn:Heq; [exists []; simpl; auto|].
  destruct (isDestinationParentOfSource S D) eqn:HA.
  - apply isDestinationParentOfSource_spec in HA.
    destruct HA as (R & HR & ->).
    destruct (path_snoc R HR) as (R' & b & ->).
    rewrite getNodeAtPath_app, HD in HS.
    destruct (getNodeAtPath_snoc dst src R' b HS) as (d & f & s & pc & HP & _).
    rewrite skipn_app, skipn_all, Nat.sub_diag. simpl skipn. simpl app.
    rewrite (createRemoveUpdate_snoc dst R' b d f s pc HP).
    eexists. split; [reflexivity | simpl; lia].
  - destruct S as [|c r] eqn:ES.
    + eexists. split; [reflexivity | simpl; lia].
    + assert (Hne : S <> []) by (rewrite ES; discriminate).
      rewrite <- ES in *. destruct (path_snoc S Hne) as (Q & b & EQ).
      rewrite EQ in HS.
      destruct (getNodeAtPath_snoc root src Q b HS)
        as (d & f & s & pc & HP & _).
      rewrite EQ, (createRemoveUpdate_snoc root Q b d f s pc HP).
      eexists. split; [reflexivity | simpl; lia].
Qed.

Lemma drag_batch_sets (root : Node) (S D : MosaicPath)
    (side : MosaicDropTargetPosition) (us : list (MosaicUpdate T)) :
  createDragToUpdates root S D side = Ok us ->
  forallb (fun u => negb (isPatch u)) us = true.
Proof.
  unfold createDragToUpdates.
  destruct (getNodeAtPath root S); [|now intros [= <-]].
  destruct (getNodeAtPath root D); [|now intros [= <-]].
  destruct (path_eqb S D); [now intros [= <-]|].
  destruct (isDestinationParentOfSource S D).
  - destruct (createRemoveUpdate _ _); [|discriminate].
    simpl. now intros [= <-].
  - destruct S.
    + now intros [= <-].
    + destruct (createRemoveUpdate _ _) as [[p [n|? ? ? ?]]|] eqn:E;
        try discriminate.
      * now intros [= <-].
      * exfalso. clear -E. unfold createRemoveUpdate in E.
        destruct (getAndAssertNodeAtPathExists _ _) as [[|]|]; discriminate.
Qed.

End DragMore.

(** X12. [createDragToUpdates] never lets an error of [createRemoveUpdate]
    escape: for every tree, pair of paths and side it returns a batch, of at
    most two updates, every one of them a [$set]. *)
Theorem createDragToUpdates_returns (T : Type) (root : MosaicNode T)
    (S D : MosaicPath) (side : MosaicDropTargetPosition) :
  exists us,
    createDragToUpdates root S D side = Ok us
    /\ length us <= 2
    /\ forallb (fun u => negb (isPatch u)) us = true.
Proof.
  destruct (drag_never_throws root S D side) as (us & E & Hl).
  exists us. split; [exact E|]. split; [exact Hl|].
  apply (drag_batch_sets root S D side us E).
Qed.

(** X13. When the destination lies strictly below the sibling of the source,
    the batch removes the source and then sets the joint at the destination
    path as it was before the removal. The removal has moved the sibling up
    into the parent's place, so the second update is resolved inside the
    sibling from its own branch on; when nothing is there, the update is
    dropped and the leaves of the source are gone from the result. *)
Theorem drag_below_sibling_keeps_path (T : Type) (root src dst : MosaicNode T)
    (Q rest : MosaicPath) (b : MosaicBranch)
    (side : MosaicDropTargetPosition) :
  getNodeAtPath root (Q ++ [b]) = Some src ->
  getNodeAtPath root (Q ++ getOtherBranch b :: rest) = Some dst ->
  rest <> [] ->
  exists sib,
    getNodeAtPath root (Q ++ [getOtherBranch b]) = Some sib
    /\ createDragToUpdates root (Q ++ [b]) (Q ++ getOtherBranch b :: rest) side
       = Ok [mkUpdate Q (SpecSet sib);
             mkUpdate (Q ++ getOtherBranch b :: rest)
               (SpecSet (expectedJoint side src dst))]
    /\ (getNodeAtPath sib (getOtherBranch b :: rest) = None ->
        exists result,
          updateTree (Some root)
            [mkUpdate Q (SpecSet sib);
             mkUpdate (Q ++ getOtherBranch b :: rest)
               (SpecSet (expectedJoint side src dst))]
          = Some result
          /\ Permutation (getLeaves (Some root))
               (getLeaves (Some src) ++ getLeaves (Some result))).
Proof.
  intros HS HD Hrest.
  destruct (getNodeAtPath_snoc root src Q b HS) as (d & f & s & pc & HP & ->).
  set (sib := child (getOtherBranch b) f s).
  exists sib. split; [apply (getNodeAtPath_child root Q _ d f s pc HP)|].
  assert (Hne : Q ++ [b] <> Q ++ getOtherBranch b :: rest).
  { intros E. apply app_inv_head in E. injection E as E _.
    symmetry in E. now apply getOtherBranch_neq in E. }
  assert (HA : isDestinationParentOfSource (Q ++ [b])
                 (Q ++ getOtherBranch b :: rest) = false).
  { unfold isDestinationParentOfSource.
    replace (length (Q ++ getOtherBranch b :: rest) <? length (Q ++ [b]))
      with false; [reflexivity|].
    symmetry. apply Nat.ltb_ge. rewrite !length_app. simpl. lia. }
  split.
  - rewrite (drag_standard root dst Q _ b side d f s pc HP HD Hne HA).
    now rewrite (adjusted_below_sibling Q rest b Hrest), jointNode_expected.
  - intros Hnone. eexists. split.
    + unfold updateTree. cbn [fold_left]. rewrite !applyUpdate_set.
      reflexivity.
    + rewrite replaceAt_unresolved.
      * apply (nodeLeaves_remove root Q b d f s pc HP).
      * now rewrite (getNodeAtPath_replaceAt root _ sib Q _ HP).
Qed.

(** X13, an instance: [scenarioB], where "a" is dragged to the left of "b"
    inside the sibling column. *)
Lemma drag_below_sibling_keeps_path_witness :
  exists sib,
    getNodeAtPath scenarioB ([] ++ [getOtherBranch first]) = Some sib
    /\ createDragToUpdates scenarioB ([] ++ [first])
         ([] ++ getOtherBranch first :: [first]) LEFT
       = Ok [mkUpdate [] (SpecSet sib);
             mkUpdate ([] ++ getOtherBranch first :: [first])
               (SpecSet (expectedJoint LEFT (Leaf "a"%string)
                           (Leaf "b"%string)))]
    /\ (getNodeAtPath sib (getOtherBranch first :: [first]) = None ->
        exists result,
          updateTree (Some scenarioB)
            [mkUpdate [] (SpecSet sib);
             mkUpdate ([] ++ getOtherBranch first :: [first])
               (SpecSet (expectedJoint LEFT (Leaf "a"%string)
                           (Leaf "b"%string)))]
          = Some result
          /\ Permutation (getLeaves (Some scenarioB))
               (getLeaves (Some (Leaf "a"%string))
                  ++ getLeaves (Some result))).
Proof.
  apply (drag_below_sibling_keeps_path string scenarioB (Leaf "a"%string)
           (Leaf "b"%string) [] [first] first LEFT).
  - reflexivity.
  - reflexivity.
  - discriminate.
Defined.

(** ** More on balanced trees *)

Section BalancedMore.

Context {T : Type}.

Local Abbreviation Node := (MosaicNode T).

Lemma balanced_none (leaves : list T) (d : MosaicDirection) :
  createBalancedTreeFromLeaves leaves d = None -> leaves = [].
Proof.
  intros H. pose proof (getLeaves_balanced leaves d) as E.
  rewrite H in E. now symmetry.
Qed.

Lemma half_pow (n k : nat) :
  2 <= n -> n <= 2 ^ k ->
  exists k', k = S k' /\ n / 2 <= 2 ^ k' /\ n - n / 2 <= 2 ^ k'.
Proof.
  intros Hn Hk. destruct k as [|k']; [simpl in Hk; lia|].
  exists k'. split; [reflexivity|].
  pose proof (Nat.div_mod_eq n 2) as E.
  pose proof (Nat.mod_upper_bound n 2 ltac:(lia)) as M.
  rewrite Nat.pow_succ_r' in Hk. lia.
Qed.

Lemma balanced_depth (leaves : list T) (d : MosaicDirection) :
  forall k, length leaves <= 2 ^ k ->
  getTreeDepth (createBalancedTreeFromLeaves leaves d) <= k + 1.
Proof.
  funelim (createBalancedTreeFromLeaves leaves d); intros k Hk.
  - simpl. lia.
  - simpl. lia.
  - clear Heqcall H0.
    remember (l0 :: l1 :: ls) as L eqn:EL.
    assert (Hn : 2 <= length L) by (subst L; simpl; lia). clear EL.
    destruct (half_pow (length L) k Hn Hk) as (k' & -> & Hf & Hs).
    specialize (H k'). specialize (H1 k').
    rewrite length_firstn in H. rewrite length_skipn in H1.
    assert (Hmin : Nat.min (length L / 2) (length L) <= 2 ^ k') by lia.
    specialize (H Hmin). specialize (H1 Hs).
    destruct (createBalancedTreeFromLeaves (firstn (length L / 2) L) _);
      destruct (createBalancedTreeFromLeaves (skipn (length L / 2) L) _);
      simpl in *; lia.
Qed.

Lemma balanced_alternates (leaves : list T) (d : MosaicDirection) :
  match createBalancedTreeFromLeaves leaves d with
  | Some t => alternatesFrom d t
  | None => True
  end.
Proof.
  funelim (createBalancedTreeFromLeaves leaves d); try exact I.
  clear Heqcall H0.
  remember (l0 :: l1 :: ls) as L eqn:EL.
  assert (Hn : 2 <= length L) by (subst L; simpl; lia). clear EL.
  pose proof (balanced_none (firstn (length L / 2) L)
                (getOtherDirection startDirection)) as Nf.
  pose proof (balanced_none (skipn (length L / 2) L)
                (getOtherDirection startDirection)) as Ns.
  pose proof (f_equal (@length _) (firstn_skipn (length L / 2) L)) as El.
  rewrite length_app in El.
  pose proof (Nat.div_mod_eq (length L) 2) as E.
  pose proof (Nat.mod_upper_bound (length L) 2 ltac:(lia)) as M.
  destruct (createBalancedTreeFromLeaves (firstn (length L / 2) L) _) as [f|].
  - destruct (createBalancedTreeFromLeaves (skipn (length L / 2) L) _)
      as [s|].
    + simpl. auto.
    + exfalso. specialize (Ns eq_refl). rewrite Ns in El.
      rewrite length_firstn in El. cbn [length] in El. lia.
  - exfalso. specialize (Nf eq_refl). rewrite Nf in El.
    rewrite length_skipn in El. cbn [length] in El. lia.
Qed.

End BalancedMore.

(** X14. The tree built from [n] leaves, with [1 <= n <= 2^k], has depth at
    most [k + 1]; the empty list gives depth 0. *)
Theorem balanced_tree_depth_bound (T : Type) (leaves : list T)
    (startDirection : MosaicDirection) (k : nat) :
  length leaves <= 2 ^ k ->
  getTreeDepth (createBalancedTreeFromLeaves leaves startDirection) <= k + 1.
Proof. apply balanced_depth. Qed.

(** X14, an instance: five leaves fit in depth four. *)
Lemma balanced_tree_depth_bound_witness :
  getTreeDepth
    (createBalancedTreeFromLeaves
       [view_a; view_b; view_c; view_d; view_new] row) <= 3 + 1.
Proof.
  apply (balanced_tree_depth_bound ViewId
           [view_a; view_b; view_c; view_d; view_new] row 3).
  simpl. lia.
Defined.

(** X15. The tree [createBalancedTreeFromLeaves] builds has the start
    direction at its root, the other direction one level down, and so on in
    alternation, with every split at 50; it is null only for the empty
    list. *)
Theorem balanced_tree_alternates (T : Type) (leaves : list T)
    (startDirection : MosaicDirection) :
  match createBalancedTreeFromLeaves leaves startDirection with
  | Some t => alternatesFrom startDirection t
  | None => leaves = []
  end.
Proof.
  pose proof (balanced_alternates leaves startDirection) as H.
  pose proof (balanced_none leaves startDirection) as N.
  destruct (createBalancedTreeFromLeaves leaves startDirection); auto.
Qed.

(** ** Rendering *)

Section RenderFacts.

Context {T : Type}.

Local Abbreviation Node := (MosaicNode T).

Lemma tilesOf_app (a b : list (Rendered T)) :
  tilesOf (a ++ b) = tilesOf a ++ tilesOf b.
Proof.
  induction a as [|[id p bx|d v bx] a IH]; simpl; [reflexivity| |exact IH].
  now rewrite IH.
Qed.

Lemma splitBarsOf_app (a b : list (Rendered T)) :
  splitBarsOf (a ++ b) = splitBarsOf a + splitBarsOf b.
Proof.
  induction a as [|[id p bx|d v bx] a IH]; simpl; [reflexivity|exact IH|].
  now rewrite IH.
Qed.

Lemma rendered_ids (node : Node) (path : MosaicPath) (box : BoundingBox) :
  map fst (tilesOf (MosaicNodeRenderer node path box)) = nodeLeaves node.
Proof.
  revert path box. induction node as [x|d f IHf s IHs pc]; intros path box.
  - reflexivity.
  - cbn [MosaicNodeRenderer nodeLeaves].
    rewrite !tilesOf_app, !map_app, IHf, IHs. reflexivity.
Qed.

Lemma rendered_bars (node : Node) (path : MosaicPath) (box : BoundingBox) :
  splitBarsOf (MosaicNodeRenderer node path box) + 1
  = length (nodeLeaves node).
Proof.
  revert path box. induction node as [x|d f IHf s IHs pc]; intros path box.
  - reflexivity.
  - cbn [MosaicNodeRenderer nodeLeaves].
    rewrite !splitBarsOf_app, length_app.
    specialize (IHf (path ++ [first])
                  (fst (split box match pc with
                                  | Some v => v
                                  | None => 50%float
                                  end d))).
    specialize (IHs (path ++ [second])
                  (snd (split box match pc with
                                  | Some v => v
                                  | None => 50%float
                                  end d))).
    simpl splitBarsOf at 2. lia.
Qed.

Lemma rendered_paths (node : Node) (path : MosaicPath) (box : BoundingBox)
    (id : T) (p : MosaicPath) :
  In (id, p) (tilesOf (MosaicNodeRenderer node path box)) ->
  exists q, p = path ++ q /\ getNodeAtPath node q = Some (Leaf id).
Proof.
  revert path box. induction node as [x|d f IHf s IHs pc]; intros path box.
  - simpl. intros [E|[]]. injection E as -> ->. exists [].
    now rewrite app_nil_r.
  - cbn [MosaicNodeRenderer]. rewrite !tilesOf_app. simpl tilesOf at 2.
    rewrite app_nil_l. intros H. apply in_app_or in H. destruct H as [H|H].
    + destruct (IHf _ _ H) as (q & -> & E). exists (first :: q).
      now rewrite <- app_assoc.
    + destruct (IHs _ _ H) as (q & -> & E). exists (second :: q).
      now rewrite <- app_assoc.
Qed.

Lemma rendered_paths_nodup (node : Node) (path : MosaicPath)
    (box : BoundingBox) :
  NoDup (map snd (tilesOf (MosaicNodeRenderer node path box))).
Proof.
  revert path box. induction node as [x|d f IHf s IHs pc]; intros path box.
  - simpl. constructor; [intros [] | constructor].
  - cbn [MosaicNodeRenderer]. rewrite !tilesOf_app. simpl tilesOf at 2.
    rewrite app_nil_l, map_app. apply NoDup_app; [apply IHf | apply IHs |].
    intros p Hf Hs.
    apply in_map_iff in Hf. destruct Hf as ([i1 p1] & E1 & Hf).
    apply in_map_iff in Hs. destruct Hs as ([i2 p2] & E2 & Hs).
    simpl in E1, E2. subst p1 p2.
    destruct (rendered_paths _ _ _ _ _ Hf) as (q1 & E1 & _).
    destruct (rendered_paths _ _ _ _ _ Hs) as (q2 & E2 & _).
    rewrite E1, <- !app_assoc in E2. apply app_inv_head in E2.
    discriminate.
Qed.

End RenderFacts.

(** X16. [MosaicRoot] renders every leaf exactly once: the ids of the tiles,
    in order, are [getLeaves] of the tree; the path handed to [renderTile]
    and to the drop targets of a tile resolves to that tile's leaf; no two
    tiles get the same path; and there is one split bar fewer than there are
    tiles. The null tree renders nothing. *)
Theorem MosaicRoot_tiles (T : Type) (root : MosaicNode T) :
  map fst (tilesOf (MosaicRoot (Some root))) = getLeaves (Some root)
  /\ (forall id p,
        In (id, p) (tilesOf (MosaicRoot (Some root))) ->
        getNodeAtPath root p = Some (Leaf id))
  /\ NoDup (map snd (tilesOf (MosaicRoot (Some root))))
  /\ splitBarsOf (MosaicRoot (Some root)) + 1
     = length (getLeaves (Some root))
  /\ MosaicRoot (@None (MosaicNode T)) = [].
Proof.
  unfold MosaicRoot. split; [apply rendered_ids|]. split.
  - intros id p H. destruct (rendered_paths _ _ _ _ _ H) as (q & -> & E).
    exact E.
  - split; [apply rendered_paths_nodup|]. split; [apply rendered_bars|].
    reflexivity.
Qed.

(** ** The example application *)

(** X17. [autoArrange] keeps the leaves and their order, never turns a
    layout into the empty one, and arranging twice gives what arranging once
    gives. *)
Theorem autoArrange_stable (currentNode : option (MosaicNode ViewId)) :
  getLeaves (autoArrange currentNode) = getLeaves currentNode
  /\ autoArrange (autoArrange currentNode) = autoArrange currentNode
  /\ (autoArrange currentNode = None <-> currentNode = None).
Proof.
  assert (L : getLeaves (autoArrange currentNode) = getLeaves currentNode).
  { destruct currentNode as [t|]; [|reflexivity].
    apply getLeaves_balanced. }
  assert (N : autoArrange currentNode = None <-> currentNode = None).
  { split; [|now intros ->]. destruct currentNode as [t|]; [|reflexivity].
    intros H. apply balanced_none in H. simpl in H.
    pose proof (nodeLeaves_nonempty t) as P. rewrite H in P. simpl in P. lia. }
  split; [exact L|]. split; [|exact N].
  destruct (autoArrange currentNode) as [t'|] eqn:E; [|reflexivity].
  unfold autoArrange at 1. rewrite L. rewrite <- E.
  destruct currentNode as [t|]; [reflexivity|discriminate].
Qed.

(** X18. [addWindow] appends the new window to the leaves, keeping the old
    ones in order, and never gives the empty layout. *)
Theorem addWindow_appends (currentNode : option (MosaicNode ViewId)) :
  getLeaves (addWindow currentNode) = getLeaves currentNode ++ [view_new]
  /\ addWindow currentNode <> None.
Proof.
  assert (L : getLeaves (addWindow currentNode)
              = getLeaves currentNode ++ [view_new]).
  { destruct currentNode as [t|]; [|reflexivity]. apply getLeaves_balanced. }
  split; [exact L|]. intros H. rewrite H in L. simpl in L.
  now destruct (getLeaves currentNode).
Qed.

(** ** More on doubles *)

Lemma SFcompare_refl (a : spec_float) :
  a <> S754_nan -> SFcompare a a = Some Eq.
Proof.
  intros Ha. destruct a as [s|s| |s m e]; try contradiction;
    try (destruct s); simpl; try reflexivity;
    rewrite Z.compare_refl;
    change (Pos.compare_cont Eq m m) with (Pos.compare m m);
    now rewrite Pos.compare_refl.
Qed.

Lemma leb_not_nan (a b : float) :
  (a <=? b)%float = true -> is_nan a = false /\ is_nan b = false.
Proof.
  rewrite leb_spec. intros H. unfold is_nan. rewrite !eqb_spec. unfold SFeqb.
  rewrite !SFcompare_refl; [now split | |].
  - now apply (SFleb_not_nan_r (Prim2SF a)).
  - intros E. rewrite E in H. discriminate.
Qed.

Lemma leb_refl (a : float) : is_nan a = false -> (a <=? a)%float = true.
Proof.
  intros Ha. destruct (a <? a)%float eqn:E.
  - pose proof (ltb_asym a a E). congruence.
  - now apply (not_ltb_leb a a).
Qed.

Lemma Math_min_bounds (a b : float) :
  is_nan a = false -> is_nan b = false ->
  (Math_min a b = a \/ Math_min a b = b)
  /\ (Math_min a b <=? a)%float = true
  /\ (Math_min a b <=? b)%float = true.
Proof.
  intros Ha Hb. unfold Math_min. rewrite Ha, Hb. cbn [orb].
  destruct (a <? b)%float eqn:A.
  - split; [now left|]. split; [now apply leb_refl | now apply ltb_leb].
  - destruct (b <? a)%float eqn:B.
    + split; [now right|]. split; [now apply ltb_leb | now apply leb_refl].
    + destruct (not_ltb_leb a b Ha Hb A B) as [Hab Hba].
      destruct (get_sign a).
      * split; [now left|]. split; [now apply leb_refl | exact Hab].
      * split; [now right|]. split; [exact Hba | now apply leb_refl].
Qed.

Lemma Math_max_bounds (a b : float) :
  is_nan a = false -> is_nan b = false ->
  (Math_max a b = a \/ Math_max a b = b)
  /\ (a <=? Math_max a b)%float = true
  /\ (b <=? Math_max a b)%float = true.
Proof.
  intros Ha Hb. unfold Math_max. rewrite Ha, Hb. cbn [orb].
  destruct (a <? b)%float eqn:A.
  - split; [now right|]. split; [now apply ltb_leb | now apply leb_refl].
  - destruct (b <? a)%float eqn:B.
    + split; [now left|]. split; [now apply leb_refl | now apply ltb_leb].
    + destruct (not_ltb_leb a b Ha Hb A B) as [Hab Hba].
      destruct (get_sign a).
      * split; [now right|]. split; [exact Hab | now apply leb_refl].
      * split; [now left|]. split; [now apply leb_refl | exact Hba].
Qed.

Lemma Math_max_not_nan (a b : float) :
  is_nan (Math_max a b) = false -> is_nan a = false /\ is_nan b = false.
Proof.
  unfold Math_max. destruct (is_nan a) eqn:Ha, (is_nan b) eqn:Hb;
    cbn [orb]; try (change (is_nan nan) with true; discriminate).
  now split.
Qed.

Lemma Math_min_not_nan (a b : float) :
  is_nan (Math_min a b) = false -> is_nan a = false /\ is_nan b = false.
Proof.
  unfold Math_min. destruct (is_nan a) eqn:Ha, (is_nan b) eqn:Hb;
    cbn [orb]; try (change (is_nan nan) with true; discriminate).
  now split.
Qed.

Lemma clamp_between (lo hi x : float) :
  is_nan (Math_max lo (Math_min hi x)) = false ->
  (lo <=? hi)%float = true ->
  (lo <=? Math_max lo (Math_min hi x))%float = true
  /\ (Math_max lo (Math_min hi x) <=? hi)%float = true.
Proof.
  intros Hr Hle. destruct (Math_max_not_nan _ _ Hr) as [Hlo Hm].
  destruct (Math_min_not_nan _ _ Hm) as [Hhi Hx].
  destruct (Math_max_bounds lo _ Hlo Hm) as (Hc & H1 & _).
  destruct (Math_min_bounds hi x Hhi Hx) as (_ & H2 & _).
  split; [exact H1|]. destruct Hc as [-> | ->]; assumption.
Qed.

(** X19. While a split bar is dragged, the percentage handed to [onChange]
    is NaN or lies between the minimum pane size and 100 minus the minimum
    pane size, whenever the minimum is at most 100 minus itself. *)
Theorem handleMouseMove_clamped (direction : MosaicDirection)
    (startPercentage minimumPaneSizePercentage : number)
    (parentRectWidth parentRectHeight : number) (boundingBox : BoundingBox)
    (startX startY clientX clientY : number) :
  let r := handleMouseMove direction startPercentage
             minimumPaneSizePercentage parentRectWidth parentRectHeight
             boundingBox startX startY clientX clientY in
  is_nan r = false ->
  (minimumPaneSizePercentage <=? 100 - minimumPaneSizePercentage)%float
  = true ->
  (minimumPaneSizePercentage <=? r)%float = true
  /\ (r <=? 100 - minimumPaneSizePercentage)%float = true.
Proof.
  intros r Hr Hle. subst r. unfold handleMouseMove in *.
  now apply clamp_between.
Qed.

(** X19, an instance: the bar of the full box, 1000 pixels wide, dragged 900
    pixels to the right from 50 percent with the default minimum of 20. *)
Lemma handleMouseMove_clamped_witness :
  (20 <=? handleMouseMove row 50 20 1000 800 fullBox 500 400 1400 400)%float
  = true
  /\ (handleMouseMove row 50 20 1000 800 fullBox 500 400 1400 400
      <=? 100 - 20)%float = true.
Proof.
  apply (handleMouseMove_clamped row 50 20 1000 800 fullBox 500 400 1400 400).
  - reflexivity.
  - reflexivity.
Defined.

(** X20. A box contains a point only if the box is well formed and the point
    is a number: [containsPoint] is false for every point when [left] is
    above [right], when [top] is above [bottom], and when a coordinate of
    the point or an edge of the box is NaN. *)
Theorem containsPoint_needs_box (box : BoundingBox) (x y : number) :
  containsPoint box x y = true ->
  (left box <=? right box)%float = true
  /\ (top box <=? bottom box)%float = true
  /\ is_nan x = false /\ is_nan y = false.
Proof.
  unfold containsPoint. rewrite !andb_true_iff.
  intros [[[H1 H2] H3] H4].
  split; [apply (leb_trans _ x _ H1 H2)|].
  split; [apply (leb_trans _ y _ H3 H4)|].
  split; [apply (leb_not_nan _ _ H2) | apply (leb_not_nan _ _ H4)].
Qed.

(** X20, an instance: the middle of the full box. *)
Lemma containsPoint_needs_box_witness :
  (left fullBox <=? right fullBox)%float = true
  /\ (top fullBox <=? bottom fullBox)%float = true
  /\ is_nan 50%float = false /\ is_nan 50%float = false.
Proof.
  apply (containsPoint_needs_box fullBox 50 50). reflexivity.
Defined.

(** ** Splitting a window *)

(** X21. The [split] action of a window does nothing when there is no tree,
    when the window's path does not resolve, and when the window's key is
    falsy (the empty string, zero, NaN). Otherwise it hands over a tree in
    which the node at the path has become the first child of a new row split
    at 50 whose second child is the new leaf: the leaves are the old ones
    with the new one put right after those of that node. *)
Theorem windowSplit_outcome (root : MosaicNode MosaicKey) (path : MosaicPath)
    (newNode : MosaicKey) :
  windowSplit None path newNode = Unchanged
  /\ (getNodeAtPath root path = None ->
      windowSplit (Some root) path newNode = Unchanged)
  /\ (forall x,
        getNodeAtPath root path = Some x -> truthy x = false ->
        windowSplit (Some root) path newNode = Unchanged)
  /\ (forall x,
        getNodeAtPath root path = Some x -> truthy x = true ->
        exists l1 l2 t',
          getLeaves (Some root) = l1 ++ getLeaves (Some x) ++ l2
          /\ windowSplit (Some root) path newNode = Changed (Some t')
          /\ getLeaves (Some t')
             = l1 ++ (getLeaves (Some x) ++ [newNode]) ++ l2
          /\ getNodeAtPath t' path
             = Some (Parent row x (Leaf newNode) (Some 50%float))).
Proof.
  split; [reflexivity|]. unfold windowSplit. split; [now intros ->|]. split.
  - intros x -> Hx. now rewrite Hx.
  - intros x H Hx. rewrite H, Hx.
    destruct (nodeLeaves_replaceAt root x path H) as (l1 & l2 & E & R).
    exists l1, l2. eexists. split; [exact E|].
    unfold mosaicActions.replaceWith, updateTree, createReplaceUpdate.
    cbn [fold_left]. rewrite applyUpdate_set. split; [reflexivity|]. split.
    + simpl. now rewrite R.
    + apply (getNodeAtPath_replaceAt_same root x _ path H).
Qed.

Lemma balanced_even (T : Type) (leaves : list T) (d : MosaicDirection) :
  match createBalancedTreeFromLeaves leaves d with
  | Some t => evenlySplit t
  | None => True
  end.
Proof.
  funelim (createBalancedTreeFromLeaves leaves d); try exact I.
  clear Heqcall H0.
  remember (l0 :: l1 :: ls) as L eqn:EL.
  assert (Hn : 2 <= length L) by (subst L; simpl; lia). clear EL.
  pose proof (getLeaves_balanced (firstn (length L / 2) L)
                (getOtherDirection startDirection)) as Lf.
  pose proof (getLeaves_balanced (skipn (length L / 2) L)
                (getOtherDirection startDirection)) as Ls.
  pose proof (Nat.div_mod_eq (length L) 2) as E.
  pose proof (Nat.mod_upper_bound (length L) 2 ltac:(lia)) as M.
  apply (f_equal (@length _)) in Lf, Ls.
  rewrite length_firstn in Lf. rewrite length_skipn in Ls.
  destruct (createBalancedTreeFromLeaves (firstn (length L / 2) L) _) as [f|];
    destruct (createBalancedTreeFromLeaves (skipn (length L / 2) L) _)
      as [s|]; cbn [getLeaves length] in Lf, Ls; try (exfalso; lia).
  cbn [evenlySplit]. repeat split; try assumption; lia.
Qed.

(** X22. In the tree [createBalancedTreeFromLeaves] builds, every split has
    as many leaves on its second side as on its first, or one more. *)
Theorem balanced_tree_evenly_split (T : Type) (leaves : list T)
    (startDirection : MosaicDirection) :
  match createBalancedTreeFromLeaves leaves startDirection with
  | Some t => evenlySplit t
  | None => leaves = []
  end.
Proof.
  pose proof (balanced_even T leaves startDirection) as H.
  pose proof (balanced_none leaves startDirection) as N.
  destruct (createBalancedTreeFromLeaves leaves startDirection); auto.
Qed.

(** X23. Looking up a concatenated path is looking up its first part and
    then, in what was found, its second part; a path whose first part does
    not resolve does not resolve. *)
Theorem getNodeAtPath_concatenation (T : Type) (t : MosaicNode T)
    (p q : MosaicPath) :
  getNodeAtPath t (p ++ q)
  = match getNodeAtPath t p with
    | Some n => getNodeAtPath n q
    | None => None
    end.
Proof. apply getNodeAtPath_app. Qed.
